(** * Verification of the web-audit tools: link graph, PageRank, robots.txt and the crawl engine

    The development follows the Go sources:
    - [internal/pagerank/types.go]     : [Graph], [AddPage], [AddLink]
    - [internal/pagerank/algorithm.go] : [Compute], [ComputeWithResult]
    - [internal/indexer/robots.go]     : [Load], [IsBlocked], [matchesRule]
    - [internal/crawler/crawler.go]    : [New], [Crawl], [worker], [processURL]
    - [internal/crawler/parser.go]     : [IsSameDomain], [normalizeURL], [ExtractLinks]

    The scores of [Compute] are modelled twice: by exact rationals ([Q]) in
    the module [PageRank], where the properties of exact arithmetic are
    proved, and by IEEE 754 binary64 numbers in the module [Float64], which
    is what the Go code computes with.  Go slices are lists, indexed with
    [!!] so that an index out of range is a visible failure ([None], Go's
    run-time panic); Go maps are [gmap]s.  Counters of type [int] that only
    count elements held in memory are natural numbers; the other [int]s are
    integers ([Z]). *)

From Stdlib Require Import ZArith QArith Qabs List String Ascii DecimalString Lia.
From Stdlib Require PrimInt63 PrimFloat.
From stdpp Require Import base option list gmap strings.

Local Open Scope nat_scope.

(** ** The link graph ([internal/pagerank/types.go]) *)

Module PageRank.

Record Graph := mkGraph {
  Pages : gmap string nat;        (* URL -> index *)
  Indices : list string;          (* index -> URL *)
  OutLinks : list (list nat);     (* adjacency list (outgoing) *)
  InLinks : list (list nat);      (* adjacency list (incoming) *)
  OutDegree : list nat            (* number of outgoing links per page *)
}.

Definition NewGraph : Graph :=
  {| Pages := ∅; Indices := []; OutLinks := []; InLinks := []; OutDegree := [] |}.

(** [Size] returns the number of pages. *)
Definition Size (g : Graph) : nat := length (Indices g).

(** [AddPage] returns the updated graph together with the index of [url]. *)
Definition AddPage (g : Graph) (url : string) : Graph * nat :=
  match Pages g !! url with
  | Some idx => (g, idx)
  | None =>
      let idx := length (Indices g) in
      ({| Pages := <[url := idx]> (Pages g);
          Indices := Indices g ++ [url];
          OutLinks := OutLinks g ++ [[]];
          InLinks := InLinks g ++ [[]];
          OutDegree := OutDegree g ++ [0] |}, idx)
  end.

(** The scan of [g.OutLinks[fromIdx]] for an existing link. *)
Definition linkExists (outs : list nat) (toIdx : nat) : bool :=
  existsb (fun existing => existing =? toIdx) outs.

(** [AddLink] adds a directed link; [None] is the panic of an index out of
    range. *)
Definition AddLink (g : Graph) (from to : string) : option Graph :=
  let '(g1, fromIdx) := AddPage g from in
  let '(g2, toIdx) := AddPage g1 to in
  outs ← OutLinks g2 !! fromIdx;
  if linkExists outs toIdx then Some g2
  else
    ins ← InLinks g2 !! toIdx;
    deg ← OutDegree g2 !! fromIdx;
    Some {| Pages := Pages g2;
            Indices := Indices g2;
            OutLinks := <[fromIdx := outs ++ [toIdx]]> (OutLinks g2);
            InLinks := <[toIdx := ins ++ [fromIdx]]> (InLinks g2);
            OutDegree := <[fromIdx := S deg]> (OutDegree g2) |}.

(** Graphs that the program can build. *)
Inductive reachable : Graph → Prop :=
  | reach_new : reachable NewGraph
  | reach_page g url : reachable g → reachable (AddPage g url).1
  | reach_link g from to g' :
      reachable g → AddLink g from to = Some g' → reachable g'.

(** Total readers, used in statements only. *)
Definition outs_of (g : Graph) (i : nat) : list nat := default [] (OutLinks g !! i).
Definition ins_of (g : Graph) (i : nat) : list nat := default [] (InLinks g !! i).
Definition deg_of (g : Graph) (i : nat) : nat := default 0 (OutDegree g !! i).

(** The structural invariant of a graph built by [AddPage] and [AddLink]. *)
Record wf (g : Graph) : Prop := mkWf {
  wf_len_out : length (OutLinks g) = Size g;
  wf_len_in : length (InLinks g) = Size g;
  wf_len_deg : length (OutDegree g) = Size g;
  wf_bij : ∀ u i, Pages g !! u = Some i ↔ Indices g !! i = Some u;
  wf_nodup_out : ∀ i, NoDup (outs_of g i);
  wf_nodup_in : ∀ j, NoDup (ins_of g j);
  wf_mirror : ∀ i j, j ∈ outs_of g i ↔ i ∈ ins_of g j;
  wf_range : ∀ i j, j ∈ outs_of g i → i < Size g ∧ j < Size g;
  wf_deg : ∀ i, deg_of g i = length (outs_of g i)
}.

Lemma linkExists_spec outs toIdx : linkExists outs toIdx = true ↔ toIdx ∈ outs.
Proof.
  unfold linkExists. rewrite existsb_exists. split.
  - intros (x & Hx & He). apply Nat.eqb_eq in He as ->. by apply list_elem_of_In.
  - intros H. exists toIdx. split; [by apply list_elem_of_In | apply Nat.eqb_refl].
Qed.

Lemma wf_NewGraph : wf NewGraph.
Proof.
  split; intros; unfold outs_of, ins_of, deg_of, Size; cbn;
    rewrite ?lookup_nil, ?lookup_empty; cbn; try done.
  - constructor.
  - constructor.
  - split; intros HH; inversion HH.
  - exfalso. revert H. unfold outs_of. cbn. rewrite lookup_nil. cbn.
    intros HH; inversion HH.
Qed.

Lemma default_lookup_snoc {A} (d : A) (l : list A) i :
  length l ≤ i → default d ((l ++ [d]) !! i) = default d (l !! i).
Proof.
  intros Hi. rewrite (lookup_ge_None_2 l i) by done.
  destruct (decide (i = length l)) as [->|Hne].
  - by rewrite list_lookup_middle.
  - rewrite lookup_ge_None_2; [done|]. rewrite length_app. cbn. lia.
Qed.

Lemma default_lookup_app {A} (d : A) (l : list A) i :
  default d ((l ++ [d]) !! i) = default d (l !! i).
Proof.
  destruct (decide (i < length l)) as [Hlt|Hge].
  - by rewrite lookup_app_l.
  - apply default_lookup_snoc. lia.
Qed.

(** What [AddPage] guarantees on a well-formed graph. *)
Record AddPage_post (g g' : Graph) (url : string) (idx : nat) : Prop := {
  ap_wf : wf g';
  ap_idx : Pages g' !! url = Some idx;
  ap_lt : idx < Size g';
  ap_size : Size g ≤ Size g';
  ap_outs : ∀ k, outs_of g' k = outs_of g k;
  ap_ins : ∀ k, ins_of g' k = ins_of g k;
  ap_degs : ∀ k, deg_of g' k = deg_of g k;
  ap_pages : ∀ v j, Pages g !! v = Some j → Pages g' !! v = Some j
}.

Lemma AddPage_ok g url :
  wf g → AddPage_post g (AddPage g url).1 url (AddPage g url).2.
Proof.
  intros Hwf. unfold AddPage.
  destruct (Pages g !! url) as [idx|] eqn:Hp; cbn.
  - split; try done.
    apply (wf_bij g Hwf) in Hp. by apply lookup_lt_Some in Hp.
  - assert (Hout : ∀ k, outs_of (mkGraph (<[url:=length (Indices g)]> (Pages g))
        (Indices g ++ [url]) (OutLinks g ++ [[]]) (InLinks g ++ [[]])
        (OutDegree g ++ [0])) k = outs_of g k)
      by (intros k; unfold outs_of; cbn; apply default_lookup_app).
    assert (Hin : ∀ k, ins_of (mkGraph (<[url:=length (Indices g)]> (Pages g))
        (Indices g ++ [url]) (OutLinks g ++ [[]]) (InLinks g ++ [[]])
        (OutDegree g ++ [0])) k = ins_of g k)
      by (intros k; unfold ins_of; cbn; apply default_lookup_app).
    assert (Hdg : ∀ k, deg_of (mkGraph (<[url:=length (Indices g)]> (Pages g))
        (Indices g ++ [url]) (OutLinks g ++ [[]]) (InLinks g ++ [[]])
        (OutDegree g ++ [0])) k = deg_of g k)
      by (intros k; unfold deg_of; cbn; apply default_lookup_app).
    split; try done.
    + split.
      * unfold Size. cbn. rewrite !length_app. cbn.
        by rewrite (wf_len_out g Hwf).
      * unfold Size. cbn. rewrite !length_app. cbn.
        by rewrite (wf_len_in g Hwf).
      * unfold Size. cbn. rewrite !length_app. cbn.
        by rewrite (wf_len_deg g Hwf).
      * intros v i. cbn. destruct (decide (url = v)) as [<-|Hne].
        -- rewrite lookup_insert_eq. split.
           ++ intros [= <-]. by rewrite list_lookup_middle.
           ++ intros Hi. destruct (decide (i < length (Indices g))) as [Hlt|Hge].
              ** rewrite lookup_app_l in Hi by done.
                 apply (wf_bij g Hwf) in Hi. congruence.
              ** apply lookup_lt_Some in Hi as Hlt. rewrite length_app in Hlt.
                 cbn in Hlt. f_equal. lia.
        -- rewrite lookup_insert_ne by done. rewrite (wf_bij g Hwf). split.
           ++ intros Hi. rewrite lookup_app_l; [done|]. by apply lookup_lt_Some in Hi.
           ++ intros Hi. destruct (decide (i < length (Indices g))) as [Hlt|Hge].
              ** by rewrite lookup_app_l in Hi.
              ** apply lookup_lt_Some in Hi as Hlt. rewrite length_app in Hlt.
                 cbn in Hlt. assert (i = length (Indices g)) as -> by lia.
                 rewrite list_lookup_middle in Hi by done. congruence.
      * intros i. rewrite Hout. apply (wf_nodup_out g Hwf).
      * intros j. rewrite Hin. apply (wf_nodup_in g Hwf).
      * intros i j. rewrite Hout, Hin. apply (wf_mirror g Hwf).
      * intros i j. rewrite Hout. intros H. apply (wf_range g Hwf) in H.
        unfold Size in *. cbn. rewrite length_app. cbn. lia.
      * intros i. rewrite Hdg, Hout. apply (wf_deg g Hwf).
    + cbn. by rewrite lookup_insert_eq.
    + unfold Size. cbn. rewrite length_app. cbn. lia.
    + unfold Size. cbn. rewrite length_app. cbn. lia.
    + intros v j Hv. cbn. rewrite lookup_insert_ne; [done|]. congruence.
Qed.

Lemma default_lookup_insert {A} (d x : A) (l : list A) i k :
  i < length l →
  default d (<[i := x]> l !! k) = if decide (k = i) then x else default d (l !! k).
Proof.
  intros Hi. destruct (decide (k = i)) as [->|Hne].
  - by rewrite list_lookup_insert_eq.
  - by rewrite list_lookup_insert_ne.
Qed.

(** The indices that [AddLink] works with: those assigned by its two
    [AddPage] calls. *)
Definition fromIdx_of (g : Graph) (from : string) : nat := (AddPage g from).2.
Definition toIdx_of (g : Graph) (from to : string) : nat :=
  (AddPage (AddPage g from).1 to).2.

(** What [AddLink] guarantees on a well-formed graph. *)
Record AddLink_post (g g' : Graph) (from to : string) : Prop := {
  al_wf : wf g';
  al_from : Pages g' !! from = Some (fromIdx_of g from);
  al_to : Pages g' !! to = Some (toIdx_of g from to);
  al_edge : toIdx_of g from to ∈ outs_of g' (fromIdx_of g from);
  al_size : Size g ≤ Size g';
  al_outs : ∀ k, outs_of g' k =
    if decide (k = fromIdx_of g from ∧ toIdx_of g from to ∉ outs_of g k)
    then outs_of g k ++ [toIdx_of g from to] else outs_of g k;
  al_ins : ∀ k, ins_of g' k =
    if decide (k = toIdx_of g from to ∧
               toIdx_of g from to ∉ outs_of g (fromIdx_of g from))
    then ins_of g k ++ [fromIdx_of g from] else ins_of g k;
  al_degs : ∀ k, deg_of g' k =
    if decide (k = fromIdx_of g from ∧ toIdx_of g from to ∉ outs_of g k)
    then S (deg_of g k) else deg_of g k
}.

Lemma AddLink_ok g from to :
  wf g → ∃ g', AddLink g from to = Some g' ∧ AddLink_post g g' from to.
Proof.
  intros Hwf.
  pose proof (AddPage_ok g from Hwf) as H1.
  pose proof (AddPage_ok (AddPage g from).1 to (ap_wf _ _ _ _ H1)) as H2.
  unfold AddLink. fold (fromIdx_of g from) in H1. fold (toIdx_of g from to) in H2.
  assert (E1 : AddPage g from = ((AddPage g from).1, fromIdx_of g from))
    by (unfold fromIdx_of; by destruct (AddPage g from)).
  rewrite E1.
  assert (E2 : AddPage (AddPage g from).1 to =
               ((AddPage (AddPage g from).1 to).1, toIdx_of g from to))
    by (unfold toIdx_of; by destruct (AddPage (AddPage g from).1 to)).
  rewrite E2. clear E1 E2.
  set (g1 := (AddPage g from).1) in *.
  set (g2 := (AddPage g1 to).1) in *.
  set (fi := fromIdx_of g from) in *. set (ti := toIdx_of g from to) in *.
  pose proof (ap_wf _ _ _ _ H2) as Hwf2.
  assert (Hfi : fi < Size g2) by (pose proof (ap_lt _ _ _ _ H1); pose proof (ap_size _ _ _ _ H2); lia).
  pose proof (ap_lt _ _ _ _ H2) as Hti.
  assert (Ho : ∀ k, outs_of g2 k = outs_of g k)
    by (intros k; by rewrite (ap_outs _ _ _ _ H2), (ap_outs _ _ _ _ H1)).
  assert (Hi : ∀ k, ins_of g2 k = ins_of g k)
    by (intros k; by rewrite (ap_ins _ _ _ _ H2), (ap_ins _ _ _ _ H1)).
  assert (Hd : ∀ k, deg_of g2 k = deg_of g k)
    by (intros k; by rewrite (ap_degs _ _ _ _ H2), (ap_degs _ _ _ _ H1)).
  assert (Hsz : Size g ≤ Size g2)
    by (pose proof (ap_size _ _ _ _ H1); pose proof (ap_size _ _ _ _ H2); lia).
  destruct (OutLinks g2 !! fi) as [outs|] eqn:Eo; cbn;
    [|apply lookup_ge_None_1 in Eo; rewrite (wf_len_out g2 Hwf2) in Eo; lia].
  assert (Houts : outs_of g2 fi = outs) by (unfold outs_of; by rewrite Eo).
  destruct (linkExists outs ti) eqn:El.
  - apply linkExists_spec in El. exists g2. split; [done|].
    split; fold fi ti; try done.
    + apply (ap_pages _ _ _ _ H2), (ap_idx _ _ _ _ H1).
    + apply (ap_idx _ _ _ _ H2).
    + by rewrite Houts.
    + intros k. rewrite Ho. case_decide as Hc; [|done].
      destruct Hc as [-> Hc]. rewrite <- Ho, Houts in Hc. done.
    + intros k. rewrite Hi. case_decide as Hc; [|done].
      destruct Hc as [-> Hc]. rewrite <- Ho, Houts in Hc. done.
    + intros k. rewrite Hd. case_decide as Hc; [|done].
      destruct Hc as [-> Hc]. rewrite <- Ho, Houts in Hc. done.
  - assert (Hnot : ti ∉ outs)
      by (intros Hin; apply linkExists_spec in Hin; congruence).
    destruct (InLinks g2 !! ti) as [ins|] eqn:Ei; cbn;
      [|apply lookup_ge_None_1 in Ei; rewrite (wf_len_in g2 Hwf2) in Ei; lia].
    destruct (OutDegree g2 !! fi) as [deg|] eqn:Ed; cbn;
      [|apply lookup_ge_None_1 in Ed; rewrite (wf_len_deg g2 Hwf2) in Ed; lia].
    assert (Hins : ins_of g2 ti = ins) by (unfold ins_of; by rewrite Ei).
    assert (Hdeg : deg_of g2 fi = deg) by (unfold deg_of; by rewrite Ed).
    eexists. split; [done|].
    set (g' := mkGraph _ _ _ _ _).
    assert (Ho' : ∀ k, outs_of g' k =
        if decide (k = fi) then outs ++ [ti] else outs_of g2 k).
    { intros k. unfold outs_of, g'. cbn. apply default_lookup_insert.
      by rewrite (wf_len_out g2 Hwf2). }
    assert (Hi' : ∀ k, ins_of g' k =
        if decide (k = ti) then ins ++ [fi] else ins_of g2 k).
    { intros k. unfold ins_of, g'. cbn. apply default_lookup_insert.
      by rewrite (wf_len_in g2 Hwf2). }
    assert (Hd' : ∀ k, deg_of g' k =
        if decide (k = fi) then S deg else deg_of g2 k).
    { intros k. unfold deg_of, g'. cbn. apply default_lookup_insert.
      by rewrite (wf_len_deg g2 Hwf2). }
    assert (Heo : ∀ i j, j ∈ outs_of g' i ↔ j ∈ outs_of g2 i ∨ (i = fi ∧ j = ti)).
    { intros i j. rewrite Ho'. case_decide as Hc.
      - subst i. rewrite elem_of_app, list_elem_of_singleton, Houts. tauto.
      - tauto. }
    assert (Hei : ∀ i j, i ∈ ins_of g' j ↔ i ∈ ins_of g2 j ∨ (i = fi ∧ j = ti)).
    { intros i j. rewrite Hi'. case_decide as Hc.
      - subst j. rewrite elem_of_app, list_elem_of_singleton, Hins. tauto.
      - tauto. }
    split; fold fi ti.
    + split.
      * unfold g', Size. cbn. rewrite length_insert. apply (wf_len_out g2 Hwf2).
      * unfold g', Size. cbn. rewrite length_insert. apply (wf_len_in g2 Hwf2).
      * unfold g', Size. cbn. rewrite length_insert. apply (wf_len_deg g2 Hwf2).
      * apply (wf_bij g2 Hwf2).
      * intros i. rewrite Ho'. case_decide; [|apply (wf_nodup_out g2 Hwf2)].
        apply NoDup_app. split_and!.
        -- rewrite <- Houts. apply (wf_nodup_out g2 Hwf2).
        -- intros x Hx. rewrite list_elem_of_singleton. intros ->. done.
        -- apply NoDup_singleton.
      * intros j. rewrite Hi'. case_decide; [|apply (wf_nodup_in g2 Hwf2)].
        apply NoDup_app. split_and!.
        -- rewrite <- Hins. apply (wf_nodup_in g2 Hwf2).
        -- intros x Hx. rewrite list_elem_of_singleton. intros ->.
           rewrite <- Hins in Hx. apply (wf_mirror g2 Hwf2) in Hx.
           by rewrite Houts in Hx.
        -- apply NoDup_singleton.
      * intros i j. rewrite Heo, Hei, (wf_mirror g2 Hwf2). done.
      * intros i j. rewrite Heo. intros [H|[-> ->]].
        -- apply (wf_range g2 Hwf2) in H. done.
        -- done.
      * intros i. rewrite Hd', Ho'. case_decide.
        -- subst i. rewrite length_app. cbn. rewrite <- Hdeg, <- Houts.
           rewrite (wf_deg g2 Hwf2). lia.
        -- apply (wf_deg g2 Hwf2).
    + apply (ap_pages _ _ _ _ H2), (ap_idx _ _ _ _ H1).
    + apply (ap_idx _ _ _ _ H2).
    + apply Heo. by right.
    + done.
    + intros k. rewrite Ho', <- Ho. rewrite <- Houts.
      destruct (decide (k = fi)) as [->|Hne].
      * rewrite decide_True; [done|]. split; [done|]. by rewrite Houts.
      * rewrite decide_False; [done|]. tauto.
    + intros k. rewrite Hi', <- Hi, <- Ho. rewrite <- Hins.
      destruct (decide (k = ti)) as [->|Hne].
      * rewrite decide_True; [done|]. split; [done|]. by rewrite Houts.
      * rewrite decide_False; [done|]. tauto.
    + intros k. rewrite Hd', <- Hd, <- Ho. rewrite <- Hdeg.
      destruct (decide (k = fi)) as [->|Hne].
      * rewrite decide_True; [done|]. split; [done|]. by rewrite Houts.
      * rewrite decide_False; [done|]. tauto.
Qed.

Lemma reachable_wf g : reachable g → wf g.
Proof.
  induction 1 as [|g url _ IH|g from to g' _ IH Hl].
  - apply wf_NewGraph.
  - apply (ap_wf _ _ _ _ (AddPage_ok g url IH)).
  - destruct (AddLink_ok g from to IH) as (g'' & Hg & Hpost).
    rewrite Hl in Hg. injection Hg as <-. apply (al_wf _ _ _ _ Hpost).
Qed.

(** A graph built from scratch by successive [AddLink] calls. *)
Definition buildGraph (edges : list (string * string)) : option Graph :=
  foldl (fun og e => g ← og; AddLink g e.1 e.2) (Some NewGraph) edges.

Lemma foldl_AddLink_reachable edges : ∀ g g',
  reachable g →
  foldl (fun og e => g ← og; AddLink g e.1 e.2) (Some g) edges = Some g' →
  reachable g'.
Proof.
  induction edges as [|[f t] edges IH]; intros g g' Hr; cbn.
  - by intros [= <-].
  - destruct (AddLink g f t) as [g1|] eqn:E.
    + apply IH. by eapply reach_link.
    + assert (Hnone : ∀ l, foldl (fun og e => g ← og; AddLink g e.1 e.2)
                               None l = None) by (induction l; auto).
      by rewrite Hnone.
Qed.

Lemma buildGraph_reachable edges g : buildGraph edges = Some g → reachable g.
Proof. apply foldl_AddLink_reachable, reach_new. Qed.

(** The invariant of the data model: at most one recorded edge per ordered
    pair, every edge once in both adjacency lists, and the out-degree counter
    equal to the length of the out-list. *)
Definition graph_invariant (g : Graph) : Prop :=
  (∀ i outs, OutLinks g !! i = Some outs → NoDup outs) ∧
  (∀ j ins, InLinks g !! j = Some ins → NoDup ins) ∧
  (∀ i j, j ∈ outs_of g i ↔ i ∈ ins_of g j) ∧
  (∀ i, i < Size g →
     ∃ outs, OutLinks g !! i = Some outs ∧ OutDegree g !! i = Some (length outs)).

Lemma wf_graph_invariant g : wf g → graph_invariant g.
Proof.
  intros Hwf. split_and!.
  - intros i outs Ho. pose proof (wf_nodup_out g Hwf i) as Hn.
    unfold outs_of in Hn. by rewrite Ho in Hn.
  - intros j ins Hi. pose proof (wf_nodup_in g Hwf j) as Hn.
    unfold ins_of in Hn. by rewrite Hi in Hn.
  - apply (wf_mirror g Hwf).
  - intros i Hi.
    destruct (lookup_lt_is_Some_2 (OutLinks g) i) as [outs Ho];
      [by rewrite (wf_len_out g Hwf)|].
    destruct (lookup_lt_is_Some_2 (OutDegree g) i) as [deg Hd];
      [by rewrite (wf_len_deg g Hwf)|].
    exists outs. split; [done|]. pose proof (wf_deg g Hwf i) as Hdeg.
    unfold deg_of, outs_of in Hdeg. rewrite Ho, Hd in Hdeg. cbn in Hdeg.
    by rewrite Hd, Hdeg.
Qed.

(** C4. [AddLink] never panics on a graph built by [AddPage]/[AddLink]; a
    second call with the same pair leaves the graph unchanged; the first
    occurrence of a pair increments the out-degree of [from] by exactly one
    and appends [to] to the out-list of [from] and [from] to the in-list of
    [to]; every reachable graph satisfies the data-model invariant. *)
Theorem AddLink_idempotent_invariant (g : Graph) (from to : string) :
  reachable g →
  graph_invariant g ∧
  ∃ g', AddLink g from to = Some g' ∧
        AddLink g' from to = Some g' ∧
        (toIdx_of g from to ∈ outs_of g (fromIdx_of g from) → g' = g) ∧
        (toIdx_of g from to ∉ outs_of g (fromIdx_of g from) →
           deg_of g' (fromIdx_of g from) = S (deg_of g (fromIdx_of g from)) ∧
           outs_of g' (fromIdx_of g from) =
             outs_of g (fromIdx_of g from) ++ [toIdx_of g from to] ∧
           ins_of g' (toIdx_of g from to) =
             ins_of g (toIdx_of g from to) ++ [fromIdx_of g from]).
Proof.
  intros Hr. pose proof (reachable_wf g Hr) as Hwf.
  split; [by apply wf_graph_invariant|].
  destruct (AddLink_ok g from to Hwf) as (g' & Hg & Hpost).
  exists g'. split_and!; [done| | |].
  - (* second call: both pages exist and the link is found by the scan *)
    unfold AddLink, AddPage.
    rewrite (al_from _ _ _ _ Hpost). rewrite (al_to _ _ _ _ Hpost).
    pose proof (al_edge _ _ _ _ Hpost) as He. unfold outs_of in He.
    destruct (OutLinks g' !! fromIdx_of g from) as [outs|] eqn:Eo;
      cbn in He; [|inversion He].
    cbn. apply linkExists_spec in He. by rewrite He.
  - (* the pair is already recorded: both pages exist, the scan succeeds *)
    intros Hin. pose proof (wf_range g Hwf _ _ Hin) as [Hfi Hti].
    revert Hg Hin Hfi Hti. unfold AddLink, fromIdx_of, toIdx_of, AddPage, Size.
    destruct (Pages g !! from) as [fi|] eqn:Ef; cbn; [|lia].
    destruct (Pages g !! to) as [ti|] eqn:Et; cbn; [|lia].
    unfold outs_of. destruct (OutLinks g !! fi) as [outs|]; cbn; [|done].
    intros Hg Hin _ _. apply linkExists_spec in Hin. rewrite Hin in Hg.
    by injection Hg as <-.
  - intros Hnot. split_and!.
    + rewrite (al_degs _ _ _ _ Hpost). by rewrite decide_True.
    + rewrite (al_outs _ _ _ _ Hpost). by rewrite decide_True.
    + rewrite (al_ins _ _ _ _ Hpost). by rewrite decide_True.
Qed.

(** A small graph: A -> B, A -> C, B -> C. *)
Definition abc_edges : list (string * string) :=
  [("A", "B"); ("A", "C"); ("B", "C")]%string.

Definition abc_graph : Graph := default NewGraph (buildGraph abc_edges).

Lemma abc_graph_reachable : reachable abc_graph.
Proof. apply (buildGraph_reachable abc_edges). vm_compute. reflexivity. Qed.

Lemma AddLink_idempotent_invariant_witness :
  graph_invariant abc_graph ∧
  ∃ g', AddLink abc_graph "A" "B" = Some g' ∧
        AddLink g' "A" "B" = Some g' ∧
        (toIdx_of abc_graph "A" "B" ∈ outs_of abc_graph (fromIdx_of abc_graph "A") →
           g' = abc_graph) ∧
        (toIdx_of abc_graph "A" "B" ∉ outs_of abc_graph (fromIdx_of abc_graph "A") →
           deg_of g' (fromIdx_of abc_graph "A") =
             S (deg_of abc_graph (fromIdx_of abc_graph "A")) ∧
           outs_of g' (fromIdx_of abc_graph "A") =
             outs_of abc_graph (fromIdx_of abc_graph "A") ++ [toIdx_of abc_graph "A" "B"] ∧
           ins_of g' (toIdx_of abc_graph "A" "B") =
             ins_of abc_graph (toIdx_of abc_graph "A" "B") ++ [fromIdx_of abc_graph "A"]).
Proof.
  apply (AddLink_idempotent_invariant abc_graph "A" "B").
  apply (buildGraph_reachable abc_edges). vm_compute. reflexivity.
Defined.

(** ** Power iteration ([internal/pagerank/algorithm.go]) *)

Record ComputeConfig := mkComputeConfig {
  DampingFactor : Q;     (* usually 0.85 *)
  MaxIterations : Z;     (* maximum iterations *)
  Tolerance : Q          (* convergence threshold *)
}.

Definition DefaultComputeConfig : ComputeConfig :=
  {| DampingFactor := 85 # 100; MaxIterations := 100; Tolerance := 1 # 1000000 |}.

(** The conversion [float64(n)] of a non-negative [int]. *)
Definition float64 (n : nat) : Q := inject_Z (Z.of_nat n).

(** The strict comparison [x < y] on scores. *)
Definition Qltb (x y : Q) : bool := negb (Qle_bool y x).

(** Sum of the scores of the dangling nodes: the loop
    [for i := 0; i < n; i++ { if graph.OutDegree[i] == 0 { danglingSum += scores[i] } }]. *)
Definition danglingSum (g : Graph) (scores : list Q) (n : nat) : option Q :=
  foldl (fun acc i =>
           a ← acc; deg ← OutDegree g !! i;
           if deg =? 0 then s ← scores !! i; Some (a + s)%Q else Some a)
        (Some 0%Q) (seq 0 n).

(** The inner loop over [graph.InLinks[i]], starting from
    [teleport + danglingContribution]. *)
Definition linkContribution (g : Graph) (d : Q) (scores : list Q) (start : Q)
    (ins : list nat) : option Q :=
  foldl (fun acc j =>
           a ← acc; deg ← OutDegree g !! j;
           if 0 <? deg then s ← scores !! j; Some (a + d * s / float64 deg)%Q
           else Some a)
        (Some start) ins.

(** The new score of every node. *)
Definition newScoresOf (g : Graph) (d teleport danglingContribution : Q)
    (scores : list Q) (n : nat) : option (list Q) :=
  mapM (fun i => ins ← InLinks g !! i;
                 linkContribution g d scores (teleport + danglingContribution)%Q ins)
       (seq 0 n).

(** L1 norm of the difference. *)
Definition l1diff (newScores scores : list Q) (n : nat) : option Q :=
  foldl (fun acc i =>
           a ← acc; x ← newScores !! i; y ← scores !! i;
           Some (a + Qabs (x - y))%Q)
        (Some 0%Q) (seq 0 n).

(** One pass of the loop body: the new score vector and the L1 difference. *)
Definition iteration (g : Graph) (d teleport : Q) (n : nat) (scores : list Q)
    : option (list Q * Q) :=
  ds ← danglingSum g scores n;
  let danglingContribution := (d * ds / float64 n)%Q in
  newScores ← newScoresOf g d teleport danglingContribution scores n;
  diff ← l1diff newScores scores n;
  Some (newScores, diff).

(** The loop [for iter := 0; iter < config.MaxIterations; iter++]; [fuel] is
    the number of passes still allowed, [scores]/[newScores] are the two
    buffers, swapped after every pass. *)
Fixpoint iterate (g : Graph) (d tolerance teleport : Q) (n : nat) (fuel : nat)
    (iter : Z) (scores newScores : list Q) (iterations : Z)
    : option (list Q * Z * bool) :=
  match fuel with
  | O => Some (scores, iterations, false)
  | S fuel' =>
      let iterations := (iter + 1)%Z in
      '(computed, diff) ← iteration g d teleport n scores;
      let '(scores, newScores) := (computed, scores) in
      if Qltb diff tolerance then Some (scores, iterations, true)
      else iterate g d tolerance teleport n fuel' (iter + 1)%Z scores newScores iterations
  end.

(** [Compute] calculates the scores; [None] is a run-time panic. *)
Definition Compute (g : Graph) (config : ComputeConfig)
    : option (list Q * Z * bool) :=
  let n := Size g in
  if n =? 0 then Some ([], 0%Z, true)
  else
    let d := DampingFactor config in
    let initialScore := (1 / float64 n)%Q in
    let scores := replicate n initialScore in
    let teleport := ((1 - d) / float64 n)%Q in
    let newScores := replicate n 0%Q in
    iterate g d (Tolerance config) teleport n (Z.to_nat (MaxIterations config))
            0%Z scores newScores 0%Z.

(** Sum of a score vector. *)
Fixpoint sumQ (l : list Q) : Q :=
  match l with
  | [] => 0%Q
  | x :: l => (x + sumQ l)%Q
  end.

Lemma sumQ_app l1 l2 : (sumQ (l1 ++ l2) == sumQ l1 + sumQ l2)%Q.
Proof.
  induction l1 as [|x l1 IH]; cbn.
  - ring.
  - rewrite IH. ring.
Qed.

Lemma sumQ_ext {A} (f h : A → Q) (l : list A) :
  (∀ x, x ∈ l → (f x == h x)%Q) → (sumQ (map f l) == sumQ (map h l))%Q.
Proof.
  induction l as [|x l IH]; intros Hfh; cbn; [reflexivity|].
  rewrite (Hfh x) by constructor. rewrite IH; [reflexivity|].
  intros y Hy. apply Hfh. by constructor.
Qed.

Lemma sumQ_plus {A} (f h : A → Q) (l : list A) :
  (sumQ (map (fun x => f x + h x) l) == sumQ (map f l) + sumQ (map h l))%Q.
Proof. induction l as [|x l IH]; cbn; [ring|]. rewrite IH. ring. Qed.

Lemma sumQ_scale {A} (c : Q) (f : A → Q) (l : list A) :
  (sumQ (map (fun x => c * f x) l) == c * sumQ (map f l))%Q.
Proof. induction l as [|x l IH]; cbn; [ring|]. rewrite IH. ring. Qed.

Lemma sumQ_const {A} (c : Q) (l : list A) :
  (sumQ (map (fun _ => c) l) == float64 (length l) * c)%Q.
Proof.
  induction l as [|x l IH]; cbn [map sumQ length].
  - unfold float64. cbn. ring.
  - rewrite IH. unfold float64.
    rewrite Nat2Z.inj_succ, <- Z.add_1_r, inject_Z_plus. ring.
Qed.

Lemma sumQ_zero {A} (l : list A) : (sumQ (map (fun _ => 0) l) == 0)%Q.
Proof. induction l as [|x l IH]; cbn; [reflexivity|]. rewrite IH. ring. Qed.

Lemma sumQ_Forall2 l1 l2 : Forall2 Qeq l1 l2 → (sumQ l1 == sumQ l2)%Q.
Proof.
  induction 1 as [|x y l1 l2 Hxy _ IH]; cbn; [reflexivity|]. by rewrite Hxy, IH.
Qed.

(** A sum over [0..n-1] in which a single index carries a value. *)
Lemma sumQ_delta (c : Q) (k start n : nat) :
  (sumQ (map (fun i => if decide (i = k) then c else 0) (seq start n)) ==
   if decide (start ≤ k < start + n) then c else 0)%Q.
Proof.
  revert start. induction n as [|n IH]; intros start; cbn [seq map sumQ].
  - rewrite decide_False by lia. reflexivity.
  - rewrite IH. repeat case_decide; try lia; ring.
Qed.

Lemma sumQ_seq_lookup (l pre : list Q) :
  (sumQ (map (fun i => default 0 ((pre ++ l) !! i)) (seq (length pre) (length l)))
   == sumQ l)%Q.
Proof.
  revert pre. induction l as [|x l IH]; intros pre; cbn [length seq map sumQ].
  - reflexivity.
  - rewrite list_lookup_middle by done. cbn [default].
    specialize (IH (pre ++ [x])). rewrite <- app_assoc in IH. cbn [app] in IH.
    rewrite length_app in IH. cbn [length] in IH. rewrite Nat.add_1_r in IH.
    rewrite IH. reflexivity.
Qed.

Lemma float64_S n : (float64 (S n) == float64 n + 1)%Q.
Proof.
  unfold float64. rewrite Nat2Z.inj_succ, <- Z.add_1_r, inject_Z_plus. reflexivity.
Qed.

(** Every link is counted once from the side of its target (in-lists) and
    once from the side of its source (out-degree counters): summing any
    weight of the source over all in-lists equals the sum of out-degree times
    weight over all nodes. *)
Definition balanced (g : Graph) : Prop :=
  ∀ (N : nat) (f : nat → Q), Size g ≤ N →
    (sumQ (map (fun i => sumQ (map f (ins_of g i))) (seq 0 N)) ==
     sumQ (map (fun j => float64 (deg_of g j) * f j) (seq 0 N)))%Q.

Lemma balanced_NewGraph : balanced NewGraph.
Proof.
  intros N f _.
  rewrite (sumQ_ext _ (fun _ => 0%Q)), sumQ_zero.
  - rewrite (sumQ_ext _ (fun _ => 0%Q)), sumQ_zero; [reflexivity|].
    intros j _. unfold deg_of, float64. cbn. rewrite lookup_nil. cbn. ring.
  - intros i _. unfold ins_of. cbn. rewrite lookup_nil. reflexivity.
Qed.

Lemma balanced_AddPage g url : wf g → balanced g → balanced (AddPage g url).1.
Proof.
  intros Hwf Hb N f HN. pose proof (AddPage_ok g url Hwf) as Hp.
  transitivity (sumQ (map (fun i => sumQ (map f (ins_of g i))) (seq 0 N))).
  { apply sumQ_ext. intros i _. by rewrite (ap_ins _ _ _ _ Hp). }
  transitivity (sumQ (map (fun j => (float64 (deg_of g j) * f j)%Q) (seq 0 N))).
  { apply Hb. pose proof (ap_size _ _ _ _ Hp). lia. }
  apply sumQ_ext. intros j _. by rewrite (ap_degs _ _ _ _ Hp).
Qed.

Lemma balanced_AddLink g from to g' :
  wf g → balanced g → AddLink g from to = Some g' → balanced g'.
Proof.
  intros Hwf Hb Hl N f HN.
  destruct (AddLink_ok g from to Hwf) as (g'' & Hg & Hp).
  rewrite Hl in Hg. injection Hg as <-.
  set (fi := fromIdx_of g from). set (ti := toIdx_of g from to).
  set (c := if decide (ti ∈ outs_of g fi) then 0%Q else f fi).
  pose proof (al_wf _ _ _ _ Hp) as Hwf'.
  assert (Hfi : fi < N).
  { pose proof (al_from _ _ _ _ Hp) as H. apply (wf_bij g' Hwf') in H.
    apply lookup_lt_Some in H. unfold Size in HN. unfold fi. lia. }
  assert (Hti : ti < N).
  { pose proof (al_to _ _ _ _ Hp) as H. apply (wf_bij g' Hwf') in H.
    apply lookup_lt_Some in H. unfold Size in HN. unfold ti. lia. }
  transitivity (sumQ (map (fun i => (sumQ (map f (ins_of g i)) +
                                     if decide (i = ti) then c else 0)%Q) (seq 0 N))).
  { apply sumQ_ext. intros i _. rewrite (al_ins _ _ _ _ Hp). fold fi ti. unfold c.
    destruct (decide (i = ti)) as [->|Hne].
    + destruct (decide (ti ∈ outs_of g fi)).
      * rewrite decide_False by tauto. ring.
      * rewrite decide_True by tauto. rewrite map_app, sumQ_app. cbn. ring.
    + rewrite decide_False by tauto. ring. }
  transitivity (sumQ (map (fun j => (float64 (deg_of g j) * f j +
                                     if decide (j = fi) then c else 0)%Q) (seq 0 N))).
  { rewrite !sumQ_plus, !sumQ_delta. rewrite !decide_True by lia.
    rewrite (Hb N f); [reflexivity|]. pose proof (al_size _ _ _ _ Hp). lia. }
  apply sumQ_ext. intros j _. rewrite (al_degs _ _ _ _ Hp). fold fi ti. unfold c.
  destruct (decide (j = fi)) as [->|Hne].
  - destruct (decide (ti ∈ outs_of g fi)).
    + rewrite decide_False by tauto. ring.
    + rewrite decide_True by tauto. rewrite float64_S. ring.
  - rewrite decide_False by tauto. ring.
Qed.

Lemma reachable_balanced g : reachable g → balanced g.
Proof.
  induction 1 as [|g url Hr IH|g from to g' Hr IH Hl].
  - apply balanced_NewGraph.
  - apply balanced_AddPage; [by apply reachable_wf | done].
  - eapply balanced_AddLink; [by apply reachable_wf | done | done].
Qed.

Lemma float64_nonzero n : n ≠ 0 → ¬ (float64 n == 0)%Q.
Proof.
  intros Hn Hq. unfold float64, Qeq in Hq. cbn in Hq. lia.
Qed.

(** A Go accumulation loop whose body always succeeds computes a sum. *)
Lemma foldl_opt_sum {A} (body : Q → A → option Q) (t : A → Q) (l : list A) :
  (∀ a x, x ∈ l → ∃ a', body a x = Some a' ∧ (a' == a + t x)%Q) →
  ∀ acc, ∃ v, foldl (fun o x => o ≫= fun a => body a x) (Some acc) l = Some v ∧
              (v == acc + sumQ (map t l))%Q.
Proof.
  induction l as [|x l IH]; intros Hb acc; cbn [foldl map sumQ].
  - exists acc. split; [done|]. ring.
  - destruct (Hb acc x) as (a' & Ha & Hq); [constructor|].
    cbn. rewrite Ha.
    destruct (IH (fun a y Hy => Hb a y (list_elem_of_further _ _ _ Hy)) a')
      as (v & Hv & Hvq).
    exists v. split; [done|]. rewrite Hvq, Hq. ring.
Qed.

(** Total readers of a score vector and the weight a node sends along each
    of its links, used in statements only. *)
Definition score_of (scores : list Q) (i : nat) : Q := default 0%Q (scores !! i).

Definition link_weight (g : Graph) (d : Q) (scores : list Q) (j : nat) : Q :=
  if 0 <? deg_of g j then (d * score_of scores j / float64 (deg_of g j))%Q else 0%Q.

Lemma danglingSum_ok g scores n :
  length (OutDegree g) = n → length scores = n →
  ∃ ds, danglingSum g scores n = Some ds ∧
        (ds == sumQ (map (fun i => if deg_of g i =? 0 then score_of scores i else 0)
                         (seq 0 n)))%Q.
Proof.
  intros Hd Hs. unfold danglingSum.
  destruct (foldl_opt_sum
    (fun a i => deg ← OutDegree g !! i;
                if deg =? 0 then s ← scores !! i; Some (a + s)%Q else Some a)
    (fun i => if deg_of g i =? 0 then score_of scores i else 0%Q)
    (seq 0 n)) with (acc := 0%Q) as (v & Hv & Hq).
  - intros a i Hi. apply elem_of_seq in Hi.
    destruct (lookup_lt_is_Some_2 (OutDegree g) i) as [deg Hdeg]; [lia|].
    destruct (lookup_lt_is_Some_2 scores i) as [sc Hsc]; [lia|].
    unfold deg_of, score_of. rewrite Hdeg, Hsc.
    cbn -[Nat.eqb Nat.ltb Qplus Qmult Qdiv float64].
    destruct (deg =? 0); eexists; (split; [done|]); [reflexivity|ring].
  - exists v. split; [done|]. rewrite Hq. ring.
Qed.

Lemma linkContribution_ok g d scores start ins :
  length (OutDegree g) = length scores →
  (∀ j, j ∈ ins → j < length scores) →
  ∃ v, linkContribution g d scores start ins = Some v ∧
       (v == start + sumQ (map (link_weight g d scores) ins))%Q.
Proof.
  intros Hd Hr. unfold linkContribution.
  apply (foldl_opt_sum
    (fun a j => deg ← OutDegree g !! j;
                if 0 <? deg then s ← scores !! j; Some (a + d * s / float64 deg)%Q
                else Some a)).
  intros a j Hj. apply Hr in Hj.
  destruct (lookup_lt_is_Some_2 (OutDegree g) j) as [deg Hdeg]; [lia|].
  destruct (lookup_lt_is_Some_2 scores j) as [sc Hsc]; [lia|].
  unfold link_weight, deg_of, score_of. rewrite Hdeg, Hsc.
    cbn -[Nat.eqb Nat.ltb Qplus Qmult Qdiv float64].
  destruct (0 <? deg); eexists; (split; [done|]); [reflexivity|ring].
Qed.

Lemma ins_of_range g i j : wf g → j ∈ ins_of g i → j < Size g.
Proof.
  intros Hwf Hj. apply (proj2 (wf_mirror g Hwf j i)) in Hj.
  apply (wf_range g Hwf) in Hj. tauto.
Qed.

Lemma newScoresOf_ok g d teleport dc scores n :
  wf g → Size g = n → length scores = n →
  ∃ new, newScoresOf g d teleport dc scores n = Some new ∧
         Forall2 Qeq new
           (map (fun i => (teleport + dc +
                           sumQ (map (link_weight g d scores) (ins_of g i)))%Q)
                (seq 0 n)).
Proof.
  intros Hwf Hn Hs. unfold newScoresOf.
  assert (Hall : ∀ i, i ∈ seq 0 n → i < n) by (intros i Hi; apply elem_of_seq in Hi; lia).
  revert Hall. generalize (seq 0 n) as l.
  induction l as [|i l IH]; intros Hall.
  - exists []. split; [done|constructor].
  - destruct IH as (new & Hnew & Hq).
    { intros k Hk. apply Hall. by constructor. }
    assert (Hi : i < n) by (apply Hall; constructor).
    destruct (lookup_lt_is_Some_2 (InLinks g) i) as [ins Hins];
      [rewrite (wf_len_in g Hwf); lia|].
    destruct (linkContribution_ok g d scores (teleport + dc)%Q ins) as (v & Hv & Hvq).
    + rewrite (wf_len_deg g Hwf). lia.
    + intros j Hj. rewrite Hs, <- Hn. apply (ins_of_range g i); [done|].
      unfold ins_of. by rewrite Hins.
    + exists (v :: new). split.
      * cbn. rewrite Hins. cbn. rewrite Hv. cbn.
        unfold newScoresOf in Hnew. by rewrite Hnew.
      * cbn [map]. constructor; [|done]. rewrite Hvq. unfold ins_of.
        rewrite Hins. reflexivity.
Qed.

Lemma l1diff_ok new scores n :
  length new = n → length scores = n →
  ∃ diff, l1diff new scores n = Some diff ∧
          (diff == sumQ (map (fun i => Qabs (score_of new i - score_of scores i))
                             (seq 0 n)))%Q.
Proof.
  intros Hn Hs. unfold l1diff.
  destruct (foldl_opt_sum
    (fun a i => x ← new !! i; y ← scores !! i; Some (a + Qabs (x - y))%Q)
    (fun i => Qabs (score_of new i - score_of scores i))
    (seq 0 n)) with (acc := 0%Q) as (v & Hv & Hq).
  - intros a i Hi. apply elem_of_seq in Hi.
    destruct (lookup_lt_is_Some_2 new i) as [x Hx]; [lia|].
    destruct (lookup_lt_is_Some_2 scores i) as [y Hy]; [lia|].
    unfold score_of. rewrite Hx, Hy. cbn. eexists. split; [done|]. reflexivity.
  - exists v. split; [done|]. rewrite Hq. ring.
Qed.

(** One pass never panics on a well-formed graph, and its result is the
    textbook formula. *)
Lemma iteration_ok g d teleport n scores :
  wf g → Size g = n → length scores = n →
  ∃ ds new diff,
    iteration g d teleport n scores = Some (new, diff) ∧
    (ds == sumQ (map (fun i => if deg_of g i =? 0 then score_of scores i else 0)
                     (seq 0 n)))%Q ∧
    Forall2 Qeq new
      (map (fun i => (teleport + d * ds / float64 n +
                      sumQ (map (link_weight g d scores) (ins_of g i)))%Q)
           (seq 0 n)) ∧
    (diff == sumQ (map (fun i => Qabs (score_of new i - score_of scores i))
                       (seq 0 n)))%Q.
Proof.
  intros Hwf Hn Hs. unfold iteration.
  destruct (danglingSum_ok g scores n) as (ds & Hds & Hdq);
    [by rewrite (wf_len_deg g Hwf) | done |].
  destruct (newScoresOf_ok g d teleport (d * ds / float64 n)%Q scores n)
    as (new & Hnew & Hq); [done..|].
  destruct (l1diff_ok new scores n) as (diff & Hdiff & Hdf); [|done|].
  { apply Forall2_length in Hq. by rewrite Hq, length_map, length_seq. }
  exists ds, new, diff. rewrite Hds. cbn. rewrite Hnew. cbn. rewrite Hdiff. cbn.
  done.
Qed.

Lemma sumQ_scores_seq scores :
  (sumQ (map (score_of scores) (seq 0 (length scores))) == sumQ scores)%Q.
Proof. apply (sumQ_seq_lookup scores []). Qed.

(** Mass balance of one pass: teleport mass, dangling mass and the mass
    propagated along the links add up. *)
Lemma iteration_mass g d teleport n scores new diff :
  wf g → balanced g → Size g = n → n ≠ 0 → length scores = n →
  iteration g d teleport n scores = Some (new, diff) →
  (sumQ new == float64 n * teleport + d * sumQ scores)%Q.
Proof.
  intros Hwf Hb Hn Hn0 Hs Hit.
  destruct (iteration_ok g d teleport n scores Hwf Hn Hs)
    as (ds & new' & diff' & Hit' & Hds & Hq & _).
  rewrite Hit in Hit'. injection Hit' as <- <-.
  pose proof (float64_nonzero n Hn0) as Hnz.
  rewrite (sumQ_Forall2 _ _ Hq), sumQ_plus, sumQ_const, length_seq.
  rewrite (Hb n (link_weight g d scores)) by lia.
  transitivity (float64 n * teleport + d * ds +
    d * sumQ (map (fun j => if 0 <? deg_of g j then score_of scores j else 0)
                  (seq 0 n)))%Q.
  { rewrite <- sumQ_scale.
    rewrite (sumQ_ext (fun j => (float64 (deg_of g j) * link_weight g d scores j)%Q)
               (fun j => (d * if 0 <? deg_of g j then score_of scores j else 0)%Q)).
    - field. done.
    - intros j _. unfold link_weight. destruct (0 <? deg_of g j) eqn:E; [|ring].
      apply Nat.ltb_lt in E. field. apply float64_nonzero. lia. }
  rewrite Hds, <- (sumQ_scores_seq scores), Hs.
  rewrite <- Qplus_assoc, <- Qmult_plus_distr_r, <- sumQ_plus.
  rewrite (sumQ_ext _ (score_of scores)); [reflexivity|].
  intros j _. destruct (deg_of g j); cbn; ring.
Qed.

Lemma sumQ_replicate n c : (sumQ (replicate n c) == float64 n * c)%Q.
Proof.
  induction n as [|n IH]; cbn [replicate sumQ].
  - unfold float64. cbn. ring.
  - rewrite IH, float64_S. ring.
Qed.

Lemma iteration_length g d teleport n scores new diff :
  wf g → Size g = n → length scores = n →
  iteration g d teleport n scores = Some (new, diff) → length new = n.
Proof.
  intros Hwf Hn Hs Hit.
  destruct (iteration_ok g d teleport n scores Hwf Hn Hs)
    as (ds & new' & diff' & Hit' & _ & Hq & _).
  rewrite Hit in Hit'. injection Hit' as <- <-.
  apply Forall2_length in Hq. by rewrite Hq, length_map, length_seq.
Qed.

(** With the teleport value that [Compute] uses, a pass maps a distribution
    to a distribution. *)
Lemma iteration_distribution g d n scores :
  wf g → balanced g → Size g = n → n ≠ 0 → length scores = n →
  (sumQ scores == 1)%Q →
  ∃ new diff, iteration g d ((1 - d) / float64 n)%Q n scores = Some (new, diff) ∧
              length new = n ∧ (sumQ new == 1)%Q.
Proof.
  intros Hwf Hb Hn Hn0 Hs Hsum.
  destruct (iteration_ok g d ((1 - d) / float64 n)%Q n scores Hwf Hn Hs)
    as (ds & new & diff & Hit & _).
  exists new, diff. split; [done|]. split; [by eapply iteration_length|].
  rewrite (iteration_mass g d _ n scores new diff) by done.
  rewrite Hsum. field. by apply float64_nonzero.
Qed.

Lemma iterate_distribution g d tolerance n fuel :
  wf g → balanced g → Size g = n → n ≠ 0 →
  ∀ iter scores newScores iterations,
    length scores = n → (sumQ scores == 1)%Q →
    ∃ result its converged,
      iterate g d tolerance ((1 - d) / float64 n)%Q n fuel iter scores newScores
              iterations = Some (result, its, converged) ∧
      length result = n ∧ (sumQ result == 1)%Q.
Proof.
  intros Hwf Hb Hn Hn0. induction fuel as [|fuel IH];
    intros iter scores newScores iterations Hs Hsum; cbn [iterate].
  - by exists scores, iterations, false.
  - destruct (iteration_distribution g d n scores) as (new & diff & Hit & Hl & Hq);
      [done..|].
    rewrite Hit. cbn. destruct (Qltb diff tolerance).
    + by exists new, (iter + 1)%Z, true.
    + by apply IH.
Qed.

(** C1. In exact arithmetic every pass of the loop preserves the total mass:
    if the scores sum to 1 before an iteration they sum to 1 after it; hence
    the vector returned by [Compute] on a non-empty graph, after any number
    of completed iterations, sums to 1. *)
Theorem Compute_mass_conservation (g : Graph) (config : ComputeConfig) :
  reachable g → 1 ≤ Size g →
  (∀ scores, length scores = Size g → (sumQ scores == 1)%Q →
     ∃ new diff,
       iteration g (DampingFactor config)
                 ((1 - DampingFactor config) / float64 (Size g))%Q (Size g) scores
         = Some (new, diff) ∧
       length new = Size g ∧ (sumQ new == 1)%Q) ∧
  (∃ scores iterations converged,
     Compute g config = Some (scores, iterations, converged) ∧
     length scores = Size g ∧ (sumQ scores == 1)%Q).
Proof.
  intros Hr Hn. pose proof (reachable_wf g Hr) as Hwf.
  pose proof (reachable_balanced g Hr) as Hb. split.
  - intros scores Hs Hsum. apply iteration_distribution; done || lia.
  - unfold Compute. destruct (Size g =? 0) eqn:E; [apply Nat.eqb_eq in E; lia|].
    apply iterate_distribution; try done; try lia.
    + apply length_replicate.
    + rewrite sumQ_replicate. field. apply float64_nonzero. lia.
Qed.

Lemma Compute_mass_conservation_witness :
  ∃ scores iterations converged,
    Compute abc_graph (mkComputeConfig (85 # 100) 2 (1 # 1000000)) =
      Some (scores, iterations, converged) ∧
    length scores = Size abc_graph ∧ (sumQ scores == 1)%Q.
Proof.
  apply (Compute_mass_conservation abc_graph
           (mkComputeConfig (85 # 100) 2 (1 # 1000000))).
  - apply (buildGraph_reachable abc_edges). vm_compute. reflexivity.
  - vm_compute. lia.
Defined.

(** A directed cycle through all [k] nodes of the graph: [order] lists the
    nodes along the cycle, each node has exactly one outgoing link, to the
    next node of [order], the last one linking back to the first. *)
Definition is_directed_cycle (g : Graph) (k : nat) : Prop :=
  Size g = k ∧
  ∃ order : list nat,
    order ≡ₚ seq 0 k ∧
    ∀ p i, order !! p = Some i →
      ∃ j, order !! ((p + 1) mod k) = Some j ∧ outs_of g i = [j].

Lemma NoDup_only {A} (l : list A) (x : A) :
  NoDup l → x ∈ l → (∀ y, y ∈ l → y = x) → l = [x].
Proof.
  intros Hnd Hx Hall. destruct l as [|a l]; [inversion Hx|].
  assert (a = x) as -> by (apply Hall; constructor).
  destruct l as [|b l]; [done|].
  assert (b = x) as -> by (apply Hall; do 2 constructor).
  apply NoDup_cons in Hnd as [Hnd _]. exfalso. apply Hnd. constructor.
Qed.

Lemma succ_mod_inj k p q : p < k → q < k → (p + 1) mod k = (q + 1) mod k → p = q.
Proof.
  intros Hp Hq.
  destruct (decide (p + 1 = k)) as [Ep|Ep]; destruct (decide (q + 1 = k)) as [Eq|Eq].
  - lia.
  - rewrite Ep, Nat.Div0.mod_same, (Nat.mod_small (q + 1)) by lia. lia.
  - rewrite Eq, Nat.Div0.mod_same, (Nat.mod_small (p + 1)) by lia. lia.
  - rewrite !Nat.mod_small by lia. lia.
Qed.

(** On a cycle every node has out-degree one and exactly one incoming link,
    from a node of the graph. *)
Lemma cycle_shape g k :
  wf g → is_directed_cycle g k →
  ∀ i, i < k → deg_of g i = 1 ∧ ∃ j, j < k ∧ ins_of g i = [j].
Proof.
  intros Hwf (Hsz & order & Hperm & Hcyc) i Hi.
  assert (Hlen : length order = k) by (rewrite Hperm; apply length_seq).
  assert (Hnd : NoDup order) by (rewrite Hperm; apply NoDup_seq).
  assert (Hin : ∀ x, x ∈ order ↔ x < k).
  { intros x. rewrite Hperm, elem_of_seq. lia. }
  pose proof (proj2 (Hin i) Hi) as Hio.
  apply list_elem_of_lookup in Hio as [q Hq].
  pose proof (lookup_lt_Some _ _ _ Hq) as Hqk. rewrite Hlen in Hqk.
  split.
  - destruct (Hcyc q i Hq) as (j & _ & Hout).
    by rewrite (wf_deg g Hwf), Hout.
  - set (p := (q + (k - 1)) mod k).
    assert (Hpk : p < k) by (apply Nat.mod_upper_bound; lia).
    assert (Hpq : (p + 1) mod k = q).
    { unfold p. rewrite Nat.Div0.add_mod_idemp_l.
      replace (q + (k - 1) + 1) with (q + 1 * k) by lia.
      rewrite Nat.Div0.mod_add. apply Nat.mod_small. lia. }
    destruct (lookup_lt_is_Some_2 order p) as [j Hj]; [lia|].
    exists j. split; [apply Hin; by eapply list_elem_of_lookup_2|].
    destruct (Hcyc p j Hj) as (i' & Hi' & Hout). rewrite Hpq, Hq in Hi'.
    injection Hi' as <-.
    apply NoDup_only.
    + apply (wf_nodup_in g Hwf).
    + apply (wf_mirror g Hwf). rewrite Hout. constructor.
    + intros j' Hj'. apply (proj2 (wf_mirror g Hwf j' i)) in Hj'.
      assert (Hj'k : j' < k).
      { apply (wf_range g Hwf) in Hj'. lia. }
      pose proof (proj2 (Hin j') Hj'k) as Hjo.
      apply list_elem_of_lookup in Hjo as [p' Hp'].
      pose proof (lookup_lt_Some _ _ _ Hp') as Hp'k. rewrite Hlen in Hp'k.
      destruct (Hcyc p' j' Hp') as (i'' & Hi'' & Hout').
      rewrite Hout' in Hj'. apply list_elem_of_singleton in Hj'. subst i''.
      assert ((p' + 1) mod k = q) as Hp'q.
      { eapply NoDup_lookup; [exact Hnd | exact Hi'' | exact Hq]. }
      assert (p' = p) as -> by (apply (succ_mod_inj k); lia).
      congruence.
Qed.

Lemma Qabs_diff_zero (x y : Q) : (x == y)%Q → (Qabs (x - y) == 0)%Q.
Proof.
  intros H. rewrite H. assert (E : (y - y == 0)%Q) by ring. rewrite E. reflexivity.
Qed.

Lemma score_of_replicate n c i : i < n → score_of (replicate n c) i = c.
Proof. intros Hi. unfold score_of. by rewrite lookup_replicate_2. Qed.

(** On a cycle the uniform vector is a fixed point of a pass. *)
Lemma cycle_fixed_point g k d :
  wf g → is_directed_cycle g k → 1 ≤ k →
  ∃ new diff,
    iteration g d ((1 - d) / float64 k)%Q k (replicate k (1 / float64 k)%Q)
      = Some (new, diff) ∧
    length new = k ∧
    Forall (fun s => (s == 1 / float64 k)%Q) new ∧
    (diff == 0)%Q.
Proof.
  intros Hwf Hcyc Hk. pose proof (cycle_shape g k Hwf Hcyc) as Hshape.
  destruct Hcyc as [Hsz _].
  destruct (iteration_ok g d ((1 - d) / float64 k)%Q k (replicate k (1 / float64 k)%Q))
    as (ds & new & diff & Hit & Hds & Hq & Hdiff);
    [done | done | apply length_replicate |].
  assert (Hds0 : (ds == 0)%Q).
  { rewrite Hds. rewrite (sumQ_ext _ (fun _ => 0%Q)); [apply sumQ_zero|].
    intros i Hi. apply elem_of_seq in Hi. destruct (Hshape i) as [-> _]; [lia|].
    reflexivity. }
  assert (Hnz : ¬ (float64 k == 0)%Q) by (apply float64_nonzero; lia).
  assert (Hall : Forall (fun s => (s == 1 / float64 k)%Q) new).
  { eapply Forall2_Forall_l; [exact Hq|]. apply Forall_map, Forall_forall.
    intros i Hi%elem_of_seq x ->. cbn.
    destruct (Hshape i) as (_ & j & Hj & ->); [lia|].
    cbn [map sumQ]. unfold link_weight.
    destruct (Hshape j Hj) as [-> _]. cbn [Nat.ltb Nat.leb].
    rewrite score_of_replicate by done. rewrite Hds0.
    change (float64 1) with 1%Q. field. done. }
  assert (Hlen : length new = k).
  { apply Forall2_length in Hq. by rewrite Hq, length_map, length_seq. }
  exists new, diff. split_and!; try done.
  rewrite Hdiff. rewrite (sumQ_ext _ (fun _ => 0%Q)); [apply sumQ_zero|].
  intros i Hi%elem_of_seq. apply Qabs_diff_zero.
  rewrite score_of_replicate by lia.
  destruct (lookup_lt_is_Some_2 new i) as [v Hv]; [lia|].
  unfold score_of. rewrite Hv. cbn.
  rewrite Forall_forall in Hall. apply Hall. by eapply list_elem_of_lookup_2.
Qed.

Lemma Qltb_zero (diff tol : Q) : (diff == 0)%Q → (0 < tol)%Q → Qltb diff tol = true.
Proof.
  intros Hd Ht. unfold Qltb. destruct (Qle_bool tol diff) eqn:E; [|done].
  apply Qle_bool_iff in E. rewrite Hd in E. exfalso.
  apply (Qlt_not_le _ _ Ht E).
Qed.

(** C5 (in exact arithmetic). On a directed cycle of [k >= 1] nodes, with
    any damping factor, a positive tolerance and at least one iteration
    allowed, [Compute] over the rationals converges (it stops after the first
    pass with [converged = true]), and every score equals [1/k]. *)
Theorem Compute_cycle_uniform (g : Graph) (k : nat) (config : ComputeConfig) :
  reachable g → is_directed_cycle g k → 1 ≤ k →
  (0 < Tolerance config)%Q → (1 ≤ MaxIterations config)%Z →
  ∃ scores,
    Compute g config = Some (scores, 1%Z, true) ∧
    length scores = k ∧
    Forall (fun s => (s == 1 / float64 k)%Q) scores.
Proof.
  intros Hr Hcyc Hk Htol Hmax. pose proof (reachable_wf g Hr) as Hwf.
  destruct (cycle_fixed_point g k (DampingFactor config) Hwf Hcyc Hk)
    as (new & diff & Hit & Hlen & Hall & Hdiff).
  destruct Hcyc as [Hsz _].
  exists new. split; [|done].
  unfold Compute. rewrite Hsz.
  destruct (k =? 0) eqn:E; [apply Nat.eqb_eq in E; lia|].
  destruct (Z.to_nat (MaxIterations config)) as [|fuel] eqn:Ef; [lia|].
  cbn [iterate]. rewrite Hit. cbn. by rewrite (Qltb_zero diff _ Hdiff Htol).
Qed.

(** The cycle A -> B -> C -> A. *)
Definition cycle3_edges : list (string * string) :=
  [("A", "B"); ("B", "C"); ("C", "A")]%string.

Definition cycle3 : Graph := default NewGraph (buildGraph cycle3_edges).

Lemma cycle3_reachable : reachable cycle3.
Proof. apply (buildGraph_reachable cycle3_edges). vm_compute. reflexivity. Qed.

Lemma cycle3_is_cycle : is_directed_cycle cycle3 3.
Proof.
  split; [reflexivity|]. exists [0; 1; 2]. split; [reflexivity|].
  intros p i Hp. destruct p as [|[|[|p]]]; cbn in Hp; try discriminate;
    injection Hp as <-; eexists; (split; [reflexivity|]); reflexivity.
Qed.

Lemma Compute_cycle_uniform_witness :
  ∃ scores,
    Compute cycle3 DefaultComputeConfig = Some (scores, 1%Z, true) ∧
    length scores = 3 ∧
    Forall (fun s => (s == 1 / float64 3)%Q) scores.
Proof.
  apply (Compute_cycle_uniform cycle3 3 DefaultComputeConfig).
  - apply (buildGraph_reachable cycle3_edges). vm_compute. reflexivity.
  - split; [reflexivity|]. exists [0; 1; 2]. split; [reflexivity|].
    intros p i Hp. destruct p as [|[|[|p]]]; cbn in Hp; try discriminate;
      injection Hp as <-; eexists; (split; [reflexivity|]); reflexivity.
  - lia.
  - reflexivity.
  - cbn. lia.
Defined.

(** C10. With [MaxIterations <= 0] the loop body never runs: the result is
    the uniform initial vector, zero iterations, not converged. *)
Theorem Compute_no_iterations (g : Graph) (config : ComputeConfig) :
  1 ≤ Size g →
  (MaxIterations config ≤ 0)%Z →
  Compute g config =
    Some (replicate (Size g) (1 / float64 (Size g))%Q, 0%Z, false).
Proof.
  intros Hn Hmax. unfold Compute.
  destruct (Size g =? 0) eqn:E; [apply Nat.eqb_eq in E; lia|].
  replace (Z.to_nat (MaxIterations config)) with 0 by lia. reflexivity.
Qed.

Lemma Compute_no_iterations_witness :
  Compute abc_graph (mkComputeConfig (85 # 100) 0 (1 # 1000000)) =
    Some ([1 # 3; 1 # 3; 1 # 3]%Q, 0%Z, false).
Proof.
  apply (Compute_no_iterations abc_graph (mkComputeConfig (85 # 100) 0 (1 # 1000000))).
  - vm_compute. lia.
  - cbn. lia.
Defined.

(** ** Further properties of the link graph and of [Compute] *)

(** [AddPage] is a get-or-create: the index it returns is where the URL
    sits in [Indices] and what [Pages] maps it to; a new URL gets index
    [Size g] and the graph grows by one node, a known URL leaves the graph
    untouched; in both cases a second call changes nothing. *)
Theorem AddPage_get_or_create (g : Graph) (url : string) :
  reachable g →
  Indices (AddPage g url).1 !! (AddPage g url).2 = Some url ∧
  Pages (AddPage g url).1 !! url = Some (AddPage g url).2 ∧
  AddPage (AddPage g url).1 url = AddPage g url ∧
  (Pages g !! url = None →
     (AddPage g url).2 = Size g ∧ Size (AddPage g url).1 = S (Size g)) ∧
  (∀ idx, Pages g !! url = Some idx → AddPage g url = (g, idx)) ∧
  (∀ k, outs_of (AddPage g url).1 k = outs_of g k ∧
        ins_of (AddPage g url).1 k = ins_of g k ∧
        deg_of (AddPage g url).1 k = deg_of g k).
Proof.
  intros Hr. pose proof (reachable_wf g Hr) as Hwf.
  pose proof (AddPage_ok g url Hwf) as Hp.
  pose proof (ap_idx _ _ _ _ Hp) as Hidx.
  split_and!.
  - by apply (wf_bij _ (ap_wf _ _ _ _ Hp)).
  - done.
  - unfold AddPage at 1. rewrite Hidx. by destruct (AddPage g url).
  - intros Hnone. unfold AddPage, Size. rewrite Hnone. cbn.
    rewrite length_app. cbn. lia.
  - intros idx Hsome. unfold AddPage. by rewrite Hsome.
  - intros k. by rewrite (ap_outs _ _ _ _ Hp), (ap_ins _ _ _ _ Hp), (ap_degs _ _ _ _ Hp).
Qed.

Lemma AddPage_get_or_create_witness :
  Indices (AddPage abc_graph "D").1 !! (AddPage abc_graph "D").2 = Some "D"%string ∧
  Pages (AddPage abc_graph "D").1 !! "D"%string = Some (AddPage abc_graph "D").2 ∧
  AddPage (AddPage abc_graph "D").1 "D" = AddPage abc_graph "D" ∧
  (Pages abc_graph !! "D"%string = None →
     (AddPage abc_graph "D").2 = Size abc_graph ∧
     Size (AddPage abc_graph "D").1 = S (Size abc_graph)) ∧
  (∀ idx, Pages abc_graph !! "D"%string = Some idx →
          AddPage abc_graph "D" = (abc_graph, idx)) ∧
  (∀ k, outs_of (AddPage abc_graph "D").1 k = outs_of abc_graph k ∧
        ins_of (AddPage abc_graph "D").1 k = ins_of abc_graph k ∧
        deg_of (AddPage abc_graph "D").1 k = deg_of abc_graph k).
Proof.
  apply (AddPage_get_or_create abc_graph "D").
  apply (buildGraph_reachable abc_edges). vm_compute. reflexivity.
Defined.

(** [Pages] and [Indices] are inverse to each other: every URL has at most
    one index, below [Size], no URL occurs twice in [Indices], and the three
    per-node slices have one entry per node. *)
Theorem Pages_Indices_bijection (g : Graph) :
  reachable g →
  (∀ u i, Pages g !! u = Some i ↔ Indices g !! i = Some u) ∧
  (∀ u i, Pages g !! u = Some i → i < Size g) ∧
  NoDup (Indices g) ∧
  length (OutLinks g) = Size g ∧ length (InLinks g) = Size g ∧
  length (OutDegree g) = Size g.
Proof.
  intros Hr. pose proof (reachable_wf g Hr) as Hwf. split_and!.
  - apply (wf_bij g Hwf).
  - intros u i Hu. apply (wf_bij g Hwf) in Hu. by apply lookup_lt_Some in Hu.
  - apply NoDup_alt. intros i j u Hi Hj.
    apply (wf_bij g Hwf) in Hi, Hj. congruence.
  - apply (wf_len_out g Hwf).
  - apply (wf_len_in g Hwf).
  - apply (wf_len_deg g Hwf).
Qed.

Lemma Pages_Indices_bijection_witness :
  (∀ u i, Pages abc_graph !! u = Some i ↔ Indices abc_graph !! i = Some u) ∧
  (∀ u i, Pages abc_graph !! u = Some i → i < Size abc_graph) ∧
  NoDup (Indices abc_graph) ∧
  length (OutLinks abc_graph) = Size abc_graph ∧
  length (InLinks abc_graph) = Size abc_graph ∧
  length (OutDegree abc_graph) = Size abc_graph.
Proof.
  apply (Pages_Indices_bijection abc_graph).
  apply (buildGraph_reachable abc_edges). vm_compute. reflexivity.
Defined.

Lemma iterate_shape g d tolerance teleport n fuel :
  wf g → Size g = n →
  ∀ iter scores newScores iterations,
    length scores = n →
    ∃ result its converged,
      iterate g d tolerance teleport n fuel iter scores newScores iterations
        = Some (result, its, converged) ∧
      length result = n ∧
      (converged = true → (iter + 1 ≤ its ≤ iter + Z.of_nat fuel)%Z) ∧
      (converged = false →
         its = if decide (fuel = 0) then iterations else (iter + Z.of_nat fuel)%Z).
Proof.
  intros Hwf Hn. induction fuel as [|fuel IH];
    intros iter scores newScores iterations Hs; cbn [iterate].
  - exists scores, iterations, false. split_and!; done.
  - destruct (iteration_ok g d teleport n scores Hwf Hn Hs)
      as (ds & new & diff & Hit & _).
    pose proof (iteration_length g d teleport n scores new diff Hwf Hn Hs Hit) as Hl.
    rewrite Hit. cbn. destruct (Qltb diff tolerance).
    + exists new, (iter + 1)%Z, true. split_and!; [done..|lia|done].
    + destruct (IH (iter + 1)%Z new scores (iter + 1)%Z Hl)
        as (result & its & conv & Hrun & Hlen & Ht & Hf).
      exists result, its, conv. split_and!; [done..| |].
      * intros Hc. specialize (Ht Hc). lia.
      * intros Hc. specialize (Hf Hc). rewrite decide_False by done.
        destruct (decide (fuel = 0)); lia.
Qed.

Lemma Compute_total g config :
  reachable g →
  ∃ scores iterations converged,
    Compute g config = Some (scores, iterations, converged) ∧
    length scores = Size g.
Proof.
  intros Hr. pose proof (reachable_wf g Hr) as Hwf. unfold Compute.
  destruct (Size g =? 0) eqn:E.
  - apply Nat.eqb_eq in E. exists [], 0%Z, true. by rewrite E.
  - destruct (iterate_shape g (DampingFactor config) (Tolerance config)
                ((1 - DampingFactor config) / float64 (Size g))%Q (Size g)
                (Z.to_nat (MaxIterations config)) Hwf eq_refl 0%Z
                (replicate (Size g) (1 / float64 (Size g))%Q)
                (replicate (Size g) 0%Q) 0%Z (length_replicate _ _))
      as (result & its & conv & Hrun & Hlen & _).
    by exists result, its, conv.
Qed.

(** [Compute] never panics on a graph built by [AddPage]/[AddLink]; it
    returns one score per node; the iteration count is between 0 and
    [MaxIterations]; [converged = false] means that the loop ran
    [max(0, MaxIterations)] times, [converged = true] that the graph is empty
    or that at least one pass was made. *)
Theorem Compute_result_shape (g : Graph) (config : ComputeConfig) :
  reachable g →
  ∃ scores iterations converged,
    Compute g config = Some (scores, iterations, converged) ∧
    length scores = Size g ∧
    (0 ≤ iterations ≤ Z.max 0 (MaxIterations config))%Z ∧
    (converged = false → iterations = Z.max 0 (MaxIterations config) ∧ 1 ≤ Size g) ∧
    (converged = true → (Size g = 0 ∧ iterations = 0%Z) ∨ (1 ≤ iterations)%Z).
Proof.
  intros Hr. pose proof (reachable_wf g Hr) as Hwf. unfold Compute.
  destruct (Size g =? 0) eqn:E.
  - apply Nat.eqb_eq in E. exists [], 0%Z, true. rewrite E.
    split_and!; [done|done|lia|lia|intros [=]|intros _; by left].
  - apply Nat.eqb_neq in E.
    destruct (iterate_shape g (DampingFactor config) (Tolerance config)
                ((1 - DampingFactor config) / float64 (Size g))%Q (Size g)
                (Z.to_nat (MaxIterations config)) Hwf eq_refl 0%Z
                (replicate (Size g) (1 / float64 (Size g))%Q)
                (replicate (Size g) 0%Q) 0%Z (length_replicate _ _))
      as (result & its & conv & Hrun & Hlen & Ht & Hf).
    exists result, its, conv. split; [done|]. split; [done|]. split; [|split].
    + destruct conv.
      * specialize (Ht eq_refl). lia.
      * specialize (Hf eq_refl). destruct (decide (Z.to_nat (MaxIterations config) = 0)); lia.
    + intros Hc. specialize (Hf Hc). split; [|lia].
      destruct (decide (Z.to_nat (MaxIterations config) = 0)); lia.
    + intros Hc. specialize (Ht Hc). right. lia.
Qed.

Lemma Compute_result_shape_witness :
  ∃ scores iterations converged,
    Compute abc_graph DefaultComputeConfig = Some (scores, iterations, converged) ∧
    length scores = Size abc_graph ∧
    (0 ≤ iterations ≤ Z.max 0 (MaxIterations DefaultComputeConfig))%Z ∧
    (converged = false →
       iterations = Z.max 0 (MaxIterations DefaultComputeConfig) ∧ 1 ≤ Size abc_graph) ∧
    (converged = true →
       (Size abc_graph = 0 ∧ iterations = 0%Z) ∨ (1 ≤ iterations)%Z).
Proof.
  apply (Compute_result_shape abc_graph DefaultComputeConfig).
  apply (buildGraph_reachable abc_edges). vm_compute. reflexivity.
Defined.

Lemma sumQ_nonneg {A} (f : A → Q) (l : list A) :
  (∀ x, x ∈ l → (0 <= f x)%Q) → (0 <= sumQ (map f l))%Q.
Proof.
  induction l as [|x l IH]; intros Hf; cbn [map sumQ].
  - apply Qle_refl.
  - replace 0%Q with (0 + 0)%Q by reflexivity. apply Qplus_le_compat.
    + apply Hf. constructor.
    + apply IH. intros y Hy. apply Hf. by constructor.
Qed.

Lemma float64_pos n : n ≠ 0 → (0 < float64 n)%Q.
Proof. intros Hn. unfold float64, Qlt. cbn. lia. Qed.

Lemma Qdiv_nonneg (a b : Q) : (0 <= a)%Q → (0 < b)%Q → (0 <= a / b)%Q.
Proof.
  intros Ha Hb. apply Qle_shift_div_l; [done|]. by rewrite Qmult_0_l.
Qed.

Lemma score_of_nonneg scores j :
  Forall (fun s => (0 < s)%Q) scores → (0 <= score_of scores j)%Q.
Proof.
  intros Hall. unfold score_of. destruct (scores !! j) as [s|] eqn:E; cbn.
  - apply Qlt_le_weak. rewrite Forall_forall in Hall. apply Hall.
    by eapply list_elem_of_lookup_2.
  - apply Qle_refl.
Qed.

Lemma link_weight_nonneg g d scores j :
  (0 <= d)%Q → Forall (fun s => (0 < s)%Q) scores →
  (0 <= link_weight g d scores j)%Q.
Proof.
  intros Hd Hall. unfold link_weight. destruct (0 <? deg_of g j) eqn:E.
  - apply Nat.ltb_lt in E. apply Qdiv_nonneg; [|apply float64_pos; lia].
    apply Qmult_le_0_compat; [done|]. by apply score_of_nonneg.
  - apply Qle_refl.
Qed.

(** A pass keeps every score at or above the teleport value. *)
Lemma iteration_positive g d teleport n scores new diff :
  wf g → Size g = n → n ≠ 0 → length scores = n →
  (0 <= d)%Q → (0 < teleport)%Q →
  Forall (fun s => (0 < s)%Q) scores →
  iteration g d teleport n scores = Some (new, diff) →
  Forall (fun s => (teleport <= s)%Q) new.
Proof.
  intros Hwf Hn Hn0 Hs Hd Ht Hall Hit.
  destruct (iteration_ok g d teleport n scores Hwf Hn Hs)
    as (ds & new' & diff' & Hit' & Hds & Hq & _).
  rewrite Hit in Hit'. injection Hit' as <- <-.
  assert (Hds0 : (0 <= ds)%Q).
  { rewrite Hds. apply sumQ_nonneg. intros i _.
    destruct (deg_of g i =? 0); [by apply score_of_nonneg | apply Qle_refl]. }
  eapply Forall2_Forall_l; [exact Hq|]. apply Forall_map, Forall_forall.
  intros i _ x ->. cbn.
  rewrite <- (Qplus_0_r teleport) at 1. rewrite <- Qplus_assoc.
  apply Qplus_le_compat; [apply Qle_refl|].
  replace 0%Q with (0 + 0)%Q by reflexivity. apply Qplus_le_compat.
  - apply Qdiv_nonneg; [|by apply float64_pos]. by apply Qmult_le_0_compat.
  - apply sumQ_nonneg. intros j _. by apply link_weight_nonneg.
Qed.

Lemma iterate_positive g d tolerance teleport n fuel :
  wf g → Size g = n → n ≠ 0 → (0 <= d)%Q → (0 < teleport)%Q →
  ∀ iter scores newScores iterations result its converged,
    length scores = n → Forall (fun s => (0 < s)%Q) scores →
    iterate g d tolerance teleport n fuel iter scores newScores iterations
      = Some (result, its, converged) →
    Forall (fun s => (0 < s)%Q) result.
Proof.
  intros Hwf Hn Hn0 Hd Ht. induction fuel as [|fuel IH];
    intros iter scores newScores iterations result its converged Hs Hall;
    cbn [iterate].
  - by intros [= <- <- <-].
  - destruct (iteration g d teleport n scores) as [[new diff]|] eqn:Hit; cbn; [|done].
    assert (Hnew : Forall (fun s => (0 < s)%Q) new).
    { eapply Forall_impl; [by eapply iteration_positive|].
      intros s Hle. cbn in Hle. by eapply Qlt_le_trans. }
    destruct (Qltb diff tolerance).
    + by intros [= <- <- <-].
    + apply IH; [|done]. by eapply iteration_length.
Qed.

(** With a damping factor in [0, 1) every score that [Compute] returns is
    strictly positive. *)
Theorem Compute_scores_positive (g : Graph) (config : ComputeConfig) :
  reachable g → 1 ≤ Size g →
  (0 <= DampingFactor config)%Q → (DampingFactor config < 1)%Q →
  ∃ scores iterations converged,
    Compute g config = Some (scores, iterations, converged) ∧
    Forall (fun s => (0 < s)%Q) scores.
Proof.
  intros Hr Hn Hd0 Hd1. pose proof (reachable_wf g Hr) as Hwf.
  destruct (Compute_total g config Hr) as (scores & its & conv & Hc & _).
  exists scores, its, conv. split; [done|].
  revert Hc. unfold Compute.
  destruct (Size g =? 0) eqn:E; [apply Nat.eqb_eq in E; lia|].
  assert (Hf : (0 < float64 (Size g))%Q) by (apply float64_pos; lia).
  apply iterate_positive; try done; try lia.
  - apply Qlt_shift_div_l; [done|]. rewrite Qmult_0_l.
    unfold Qminus. rewrite <- Qlt_minus_iff. done.
  - apply length_replicate.
  - apply Forall_replicate. apply Qlt_shift_div_l; [done|]. by rewrite Qmult_0_l.
Qed.

Lemma Compute_scores_positive_witness :
  ∃ scores iterations converged,
    Compute abc_graph (mkComputeConfig (85 # 100) 2 (1 # 1000000))
      = Some (scores, iterations, converged) ∧
    Forall (fun s => (0 < s)%Q) scores.
Proof.
  apply (Compute_scores_positive abc_graph (mkComputeConfig (85 # 100) 2 (1 # 1000000))).
  - apply (buildGraph_reachable abc_edges). vm_compute. reflexivity.
  - vm_compute. lia.
  - vm_compute. discriminate.
  - vm_compute. reflexivity.
Defined.

Lemma uniform_diff_zero (new : list Q) (n : nat) (c : Q) :
  length new = n → Forall (fun s => (s == c)%Q) new →
  (sumQ (map (fun i => Qabs (score_of new i - score_of (replicate n c) i)) (seq 0 n))
   == 0)%Q.
Proof.
  intros Hlen Hall. rewrite (sumQ_ext _ (fun _ => 0%Q)); [apply sumQ_zero|].
  intros i Hi%elem_of_seq. apply Qabs_diff_zero.
  rewrite score_of_replicate by lia.
  destruct (lookup_lt_is_Some_2 new i) as [v Hv]; [lia|].
  unfold score_of. rewrite Hv. cbn.
  rewrite Forall_forall in Hall. apply Hall. by eapply list_elem_of_lookup_2.
Qed.

(** Without any link every node is dangling and has no incoming link. *)
Lemma no_links_no_ins g :
  wf g → (∀ i, i < Size g → deg_of g i = 0) → ∀ i, ins_of g i = [].
Proof.
  intros Hwf Hdeg i. destruct (ins_of g i) as [|j l] eqn:E; [done|].
  assert (Hj : j ∈ ins_of g i) by (rewrite E; constructor).
  apply (proj2 (wf_mirror g Hwf j i)) in Hj.
  pose proof (wf_range g Hwf _ _ Hj) as [Hjn _].
  pose proof (wf_deg g Hwf j) as Hd. rewrite (Hdeg j Hjn) in Hd.
  destruct (outs_of g j); [inversion Hj | discriminate].
Qed.

(** In exact arithmetic, a graph without links (every page dangling)
    converges in the first pass to the uniform vector: the whole mass is
    dangling and is handed back evenly. *)
Theorem Compute_no_links_uniform (g : Graph) (config : ComputeConfig) :
  reachable g → 1 ≤ Size g →
  (∀ i, i < Size g → deg_of g i = 0) →
  (0 < Tolerance config)%Q → (1 ≤ MaxIterations config)%Z →
  ∃ scores,
    Compute g config = Some (scores, 1%Z, true) ∧
    length scores = Size g ∧
    Forall (fun s => (s == 1 / float64 (Size g))%Q) scores.
Proof.
  intros Hr Hn Hdeg Htol Hmax. pose proof (reachable_wf g Hr) as Hwf.
  set (n := Size g) in *. set (d := DampingFactor config).
  destruct (iteration_ok g d ((1 - d) / float64 n)%Q n (replicate n (1 / float64 n)%Q))
    as (ds & new & diff & Hit & Hds & Hq & Hdiff);
    [done | done | apply length_replicate |].
  assert (Hnz : ¬ (float64 n == 0)%Q) by (apply float64_nonzero; lia).
  assert (Hds1 : (ds == 1)%Q).
  { rewrite Hds. rewrite (sumQ_ext _ (fun _ => (1 / float64 n)%Q)).
    - rewrite sumQ_const, length_seq. field. done.
    - intros i Hi%elem_of_seq. rewrite Hdeg by lia. cbn [Nat.eqb].
      rewrite score_of_replicate by lia. reflexivity. }
  assert (Hlen : length new = n).
  { apply Forall2_length in Hq. by rewrite Hq, length_map, length_seq. }
  assert (Hall : Forall (fun s => (s == 1 / float64 n)%Q) new).
  { eapply Forall2_Forall_l; [exact Hq|]. apply Forall_map, Forall_forall.
    intros i _ x ->. cbn. rewrite (no_links_no_ins g Hwf Hdeg i). cbn [map sumQ].
    rewrite Hds1. field. done. }
  assert (Hdiff0 : (diff == 0)%Q).
  { rewrite Hdiff. by apply uniform_diff_zero. }
  exists new. split; [|done].
  unfold Compute. fold n. destruct (n =? 0) eqn:E; [apply Nat.eqb_eq in E; lia|].
  destruct (Z.to_nat (MaxIterations config)) as [|fuel] eqn:Ef; [lia|].
  cbn [iterate]. fold d. rewrite Hit. cbn. by rewrite (Qltb_zero diff _ Hdiff0 Htol).
Qed.

(** Five isolated pages. *)
Definition isolated_pages : Graph :=
  foldl (fun g url => (AddPage g url).1) NewGraph ["A"; "B"; "C"; "D"; "E"]%string.

Lemma Compute_no_links_uniform_witness :
  ∃ scores,
    Compute isolated_pages DefaultComputeConfig = Some (scores, 1%Z, true) ∧
    length scores = Size isolated_pages ∧
    Forall (fun s => (s == 1 / float64 (Size isolated_pages))%Q) scores.
Proof.
  apply (Compute_no_links_uniform isolated_pages DefaultComputeConfig).
  - repeat apply reach_page. apply reach_new.
  - vm_compute. lia.
  - intros i Hi. do 5 (destruct i as [|i]; [reflexivity|]). vm_compute in Hi. lia.
  - reflexivity.
  - cbn. lia.
Defined.

Lemma AddLink_pages g from to g' :
  AddLink g from to = Some g' →
  Pages g' = Pages (AddPage (AddPage g from).1 to).1 ∧
  Indices g' = Indices (AddPage (AddPage g from).1 to).1.
Proof.
  unfold AddLink. destruct (AddPage g from) as [g1 fi]. cbn [fst].
  destruct (AddPage g1 to) as [g2 ti]. cbn [fst].
  destruct (OutLinks g2 !! fi) as [outs|]; cbn; [|done].
  destruct (linkExists outs ti); [by intros [= <-]|].
  destruct (InLinks g2 !! ti) as [ins|]; cbn; [|done].
  destruct (OutDegree g2 !! fi) as [deg|]; cbn; [|done].
  by intros [= <-].
Qed.

Lemma AddPage_size g url : Size (AddPage g url).1 ≤ S (Size g).
Proof.
  unfold AddPage, Size. destruct (Pages g !! url); cbn; [lia|].
  rewrite length_app. cbn. lia.
Qed.

(** [AddLink] registers both endpoints and records the link: afterwards both
    URLs have an index, the link is found in the out-list of [from] and in
    the in-list of [to], at most two pages were added, and the pages that
    were there keep their indices. *)
Theorem AddLink_registers_link (g g' : Graph) (from to : string) :
  reachable g → AddLink g from to = Some g' →
  ∃ fromIdx toIdx,
    Pages g' !! from = Some fromIdx ∧ Pages g' !! to = Some toIdx ∧
    Indices g' !! fromIdx = Some from ∧ Indices g' !! toIdx = Some to ∧
    toIdx ∈ outs_of g' fromIdx ∧ fromIdx ∈ ins_of g' toIdx ∧
    Size g ≤ Size g' ≤ Size g + 2 ∧
    (∀ u i, Pages g !! u = Some i → Pages g' !! u = Some i).
Proof.
  intros Hr Hl. pose proof (reachable_wf g Hr) as Hwf.
  destruct (AddLink_ok g from to Hwf) as (g'' & Hg & Hp).
  rewrite Hl in Hg. injection Hg as <-.
  pose proof (al_wf _ _ _ _ Hp) as Hwf'.
  destruct (AddLink_pages g from to g' Hl) as [HP HI].
  pose proof (AddPage_ok g from Hwf) as H1.
  pose proof (AddPage_ok (AddPage g from).1 to (ap_wf _ _ _ _ H1)) as H2.
  exists (fromIdx_of g from), (toIdx_of g from to). split_and!.
  - apply (al_from _ _ _ _ Hp).
  - apply (al_to _ _ _ _ Hp).
  - apply (wf_bij g' Hwf'), (al_from _ _ _ _ Hp).
  - apply (wf_bij g' Hwf'), (al_to _ _ _ _ Hp).
  - apply (al_edge _ _ _ _ Hp).
  - apply (wf_mirror g' Hwf'), (al_edge _ _ _ _ Hp).
  - apply (al_size _ _ _ _ Hp).
  - unfold Size at 1. rewrite HI. fold (Size (AddPage (AddPage g from).1 to).1).
    pose proof (AddPage_size g from). pose proof (AddPage_size (AddPage g from).1 to).
    lia.
  - intros u i Hu. rewrite HP.
    apply (ap_pages _ _ _ _ H2), (ap_pages _ _ _ _ H1), Hu.
Qed.

Lemma AddLink_registers_link_witness :
  ∃ fromIdx toIdx,
    Pages cycle3 !! "C"%string = Some fromIdx ∧ Pages cycle3 !! "A"%string = Some toIdx ∧
    Indices cycle3 !! fromIdx = Some "C"%string ∧
    Indices cycle3 !! toIdx = Some "A"%string ∧
    toIdx ∈ outs_of cycle3 fromIdx ∧ fromIdx ∈ ins_of cycle3 toIdx ∧
    Size (default NewGraph (buildGraph [("A", "B"); ("B", "C")]%string)) ≤ Size cycle3
      ≤ Size (default NewGraph (buildGraph [("A", "B"); ("B", "C")]%string)) + 2 ∧
    (∀ u i, Pages (default NewGraph (buildGraph [("A", "B"); ("B", "C")]%string)) !! u
              = Some i → Pages cycle3 !! u = Some i).
Proof.
  apply (AddLink_registers_link
           (default NewGraph (buildGraph [("A", "B"); ("B", "C")]%string)) cycle3
           "C" "A").
  - apply (buildGraph_reachable [("A", "B"); ("B", "C")]%string). vm_compute. reflexivity.
  - vm_compute. reflexivity.
Defined.

(** *** [ComputeWithResult] *)

Module Result.

(** [PageScore] represents a page and its PageRank score. *)
Record PageScore := mkPageScore {
  URL : string;
  Score : Q;
  InLinks : nat;      (* number of incoming links *)
  OutLinks : nat      (* number of outgoing links *)
}.

(** [PageRankResult] holds the computation results. *)
Record PageRankResult := mkPageRankResult {
  StartURL : string;
  TotalPages : nat;
  TotalLinks : nat;
  Iterations : Z;
  Converged : bool;
  DampingFactor : Q;
  Scores : list PageScore
}.

End Result.

(** [ComputeWithResult] calculates PageRank and returns a full result;
    [None] is a run-time panic. *)
Definition ComputeWithResult (g : Graph) (config : ComputeConfig)
    (startURL : string) : option Result.PageRankResult :=
  '(scores, iterations, converged) ← Compute g config;
  (* count total links *)
  let totalLinks := foldl (fun acc outLinks => acc + length outLinks) 0 (OutLinks g) in
  entries ← mapM (fun '(i, url) =>
                    s ← scores !! i;
                    ins ← InLinks g !! i;
                    outs ← OutLinks g !! i;
                    Some (Result.mkPageScore url s (length ins) (length outs)))
                 (imap pair (Indices g));
  Some {| Result.StartURL := startURL;
          Result.TotalPages := Size g;
          Result.TotalLinks := totalLinks;
          Result.Iterations := iterations;
          Result.Converged := converged;
          Result.DampingFactor := DampingFactor config;
          Result.Scores := entries |}.

Lemma foldl_add_length {A} (l : list (list A)) acc :
  foldl (fun acc x => acc + length x) acc l = acc + sum_list (map length l).
Proof.
  revert acc. induction l as [|x l IH]; intros acc; cbn; [lia|]. rewrite IH. lia.
Qed.

Lemma imap_index_only {A B} (F : nat → B) (l : list A) :
  imap (fun i _ => F i) l = map F (seq 0 (length l)).
Proof.
  apply list_eq. intros i. rewrite list_lookup_imap, list_lookup_fmap.
  destruct (decide (i < length l)) as [Hi|Hi].
  - rewrite lookup_seq_lt by done.
    destruct (lookup_lt_is_Some_2 l i Hi) as [x ->]. done.
  - rewrite lookup_seq_ge by lia. rewrite lookup_ge_None_2 by lia. done.
Qed.

Lemma map_default_lookup_seq {A} (d : A) (l : list A) :
  map (fun i => default d (l !! i)) (seq 0 (length l)) = l.
Proof.
  apply list_eq. intros i. rewrite list_lookup_fmap.
  destruct (decide (i < length l)) as [Hi|Hi].
  - rewrite lookup_seq_lt by done.
    destruct (lookup_lt_is_Some_2 l i Hi) as [x Hx]. cbn. by rewrite Hx.
  - rewrite lookup_seq_ge by lia. rewrite lookup_ge_None_2 by lia. done.
Qed.

Lemma mapM_pointwise {A B} (f : A → option B) (h : A → B) (l : list A) :
  (∀ x, x ∈ l → f x = Some (h x)) → mapM f l = Some (map h l).
Proof.
  intros Hf. apply mapM_Some_2. induction l as [|x l IH]; cbn; constructor.
  - apply Hf. constructor.
  - apply IH. intros y Hy. apply Hf. by constructor.
Qed.

Lemma sumQ_float64 {A} (h : A → nat) (l : list A) :
  (sumQ (map (fun x => float64 (h x)) l) == float64 (sum_list (map h l)))%Q.
Proof.
  induction l as [|x l IH]; cbn [map sumQ sum_list]; [reflexivity|].
  rewrite IH. unfold float64. rewrite Nat2Z.inj_add, inject_Z_plus. reflexivity.
Qed.

Lemma float64_inj a b : (float64 a == float64 b)%Q → a = b.
Proof. unfold float64, Qeq. cbn. lia. Qed.

(** The handshake: over all nodes, in-list lengths and out-degrees add up to
    the same number. *)
Lemma balanced_counts g :
  balanced g →
  sum_list (map (fun i => length (ins_of g i)) (seq 0 (Size g))) =
  sum_list (map (deg_of g) (seq 0 (Size g))).
Proof.
  intros Hb. apply float64_inj. rewrite <- !sumQ_float64.
  transitivity (sumQ (map (fun i => sumQ (map (fun _ => 1%Q) (ins_of g i)))
                          (seq 0 (Size g)))).
  { apply sumQ_ext. intros i _. rewrite sumQ_const. ring. }
  rewrite (Hb (Size g) (fun _ => 1%Q)) by done.
  apply sumQ_ext. intros j _. ring.
Qed.

(** [ComputeWithResult] never panics on a graph built by [AddPage]/[AddLink];
    it reports one entry per page, in index order, with the page's URL and
    its link counts; and the total number of links equals both the sum of
    the entries' out-link counts and the sum of their in-link counts. *)
Theorem ComputeWithResult_totals (g : Graph) (config : ComputeConfig)
    (startURL : string) :
  reachable g →
  ∃ r, ComputeWithResult g config startURL = Some r ∧
       Result.TotalPages r = Size g ∧
       length (Result.Scores r) = Size g ∧
       Result.TotalLinks r = sum_list (map Result.OutLinks (Result.Scores r)) ∧
       Result.TotalLinks r = sum_list (map Result.InLinks (Result.Scores r)) ∧
       (∀ i url, Indices g !! i = Some url →
          ∃ e, Result.Scores r !! i = Some e ∧ Result.URL e = url ∧
               Result.InLinks e = length (ins_of g i) ∧
               Result.OutLinks e = deg_of g i) ∧
       Compute g config =
         Some (map Result.Score (Result.Scores r), Result.Iterations r,
               Result.Converged r).
Proof.
  intros Hr. pose proof (reachable_wf g Hr) as Hwf.
  pose proof (reachable_balanced g Hr) as Hb.
  destruct (Compute_total g config Hr) as (scores & its & conv & Hc & Hlen).
  unfold ComputeWithResult. rewrite Hc. cbn.
  set (h := fun p : nat * string =>
              Result.mkPageScore p.2 (score_of scores p.1)
                                 (length (ins_of g p.1)) (length (outs_of g p.1))).
  rewrite (mapM_pointwise _ h).
  2:{ intros [i url] Hin. apply elem_of_lookup_imap_1 in Hin as (k & u & [= -> ->] & Hk).
      apply lookup_lt_Some in Hk as Hlt. fold (Size g) in Hlt.
      destruct (lookup_lt_is_Some_2 scores k) as [sc Hsc]; [lia|].
      destruct (lookup_lt_is_Some_2 (InLinks g) k) as [ins Hins];
        [rewrite (wf_len_in g Hwf); lia|].
      destruct (lookup_lt_is_Some_2 (OutLinks g) k) as [outs Houts];
        [rewrite (wf_len_out g Hwf); lia|].
      unfold h, score_of, ins_of, outs_of. cbn. rewrite Hsc, Hins, Houts. done. }
  cbn. eexists. split; [done|]. cbn.
  assert (Hmap : ∀ {B} (F : Result.PageScore → B),
            map F (map h (imap pair (Indices g))) =
            imap (fun i url => F (h (i, url))) (Indices g)).
  { intros B F. rewrite map_map. change (map ?f ?l) with (f <$> l).
    by rewrite fmap_imap. }
  assert (Houts : OutLinks g = map (outs_of g) (seq 0 (Size g))).
  { rewrite <- (wf_len_out g Hwf). symmetry. apply map_default_lookup_seq. }
  split_and!.
  - done.
  - by rewrite length_map, length_imap.
  - rewrite foldl_add_length, Hmap. cbn.
    rewrite (imap_index_only (fun i => length (outs_of g i))).
    rewrite Houts at 1. by rewrite map_map.
  - rewrite foldl_add_length, Hmap. cbn.
    rewrite (imap_index_only (fun i => length (ins_of g i))).
    fold (Size g). rewrite balanced_counts by done.
    rewrite Houts at 1. rewrite map_map. f_equal. apply map_ext.
    intros j. symmetry. apply (wf_deg g Hwf).
  - intros i url Hi. eexists. split.
    + change (map h ?l) with (h <$> l). rewrite list_lookup_fmap, list_lookup_imap, Hi.
      done.
    + cbn. split_and!; [done|done|]. symmetry. apply (wf_deg g Hwf).
  - f_equal. f_equal. f_equal. rewrite Hmap. cbn.
    rewrite (imap_index_only (score_of scores)). fold (Size g). rewrite <- Hlen.
    symmetry. apply map_default_lookup_seq.
Qed.

Lemma ComputeWithResult_totals_witness :
  ∃ r, ComputeWithResult abc_graph (mkComputeConfig (85 # 100) 1 (1 # 1000000)) "A"
         = Some r ∧
       Result.TotalPages r = Size abc_graph ∧
       length (Result.Scores r) = Size abc_graph ∧
       Result.TotalLinks r = sum_list (map Result.OutLinks (Result.Scores r)) ∧
       Result.TotalLinks r = sum_list (map Result.InLinks (Result.Scores r)) ∧
       (∀ i url, Indices abc_graph !! i = Some url →
          ∃ e, Result.Scores r !! i = Some e ∧ Result.URL e = url ∧
               Result.InLinks e = length (ins_of abc_graph i) ∧
               Result.OutLinks e = deg_of abc_graph i) ∧
       Compute abc_graph (mkComputeConfig (85 # 100) 1 (1 # 1000000)) =
         Some (map Result.Score (Result.Scores r), Result.Iterations r,
               Result.Converged r).
Proof.
  apply (ComputeWithResult_totals abc_graph
           (mkComputeConfig (85 # 100) 1 (1 # 1000000)) "A").
  apply (buildGraph_reachable abc_edges). vm_compute. reflexivity.
Defined.

End PageRank.

(** ** [Compute] in float64 arithmetic ([internal/pagerank/algorithm.go])

    The same function with the numbers the Go code has: IEEE 754 binary64
    with round-to-nearest-even, the kernel's primitive floats.  No product
    of [Compute] is the operand of a sum (each feeds a division), so no
    multiplication can be fused with an addition and the result does not
    depend on the platform. *)

Module Float64.
Import PrimInt63 PrimFloat.
Import PageRank.

Record ComputeConfig := mkComputeConfig {
  DampingFactor : float;
  MaxIterations : Z;
  Tolerance : float
}.

Fixpoint int_of_nat (n : nat) : int :=
  match n with
  | O => 0%uint63
  | S n' => (PrimInt63.add (int_of_nat n') 1)%uint63
  end.

(** The conversion [float64(n)] of a non-negative [int]. *)
Definition float64 (n : nat) : float := of_uint63 (int_of_nat n).

Definition danglingSum (g : Graph) (scores : list float) (n : nat) : option float :=
  foldl (fun acc i =>
           a ← acc; deg ← OutDegree g !! i;
           if deg =? 0 then s ← scores !! i; Some (a + s)%float else Some a)
        (Some 0%float) (seq 0 n).

Definition linkContribution (g : Graph) (d : float) (scores : list float)
    (start : float) (ins : list nat) : option float :=
  foldl (fun acc j =>
           a ← acc; deg ← OutDegree g !! j;
           if 0 <? deg then s ← scores !! j; Some (a + d * s / float64 deg)%float
           else Some a)
        (Some start) ins.

Definition newScoresOf (g : Graph) (d teleport danglingContribution : float)
    (scores : list float) (n : nat) : option (list float) :=
  mapM (fun i => ins ← InLinks g !! i;
                 linkContribution g d scores (teleport + danglingContribution)%float ins)
       (seq 0 n).

Definition l1diff (newScores scores : list float) (n : nat) : option float :=
  foldl (fun acc i =>
           a ← acc; x ← newScores !! i; y ← scores !! i;
           Some (a + abs (x - y))%float)
        (Some 0%float) (seq 0 n).

Definition iteration (g : Graph) (d teleport : float) (n : nat) (scores : list float)
    : option (list float * float) :=
  ds ← danglingSum g scores n;
  let danglingContribution := (d * ds / float64 n)%float in
  newScores ← newScoresOf g d teleport danglingContribution scores n;
  diff ← l1diff newScores scores n;
  Some (newScores, diff).

Fixpoint iterate (g : Graph) (d tolerance teleport : float) (n : nat) (fuel : nat)
    (iter : Z) (scores newScores : list float) (iterations : Z)
    : option (list float * Z * bool) :=
  match fuel with
  | O => Some (scores, iterations, false)
  | S fuel' =>
      let iterations := (iter + 1)%Z in
      '(computed, diff) ← iteration g d teleport n scores;
      let '(scores, newScores) := (computed, scores) in
      if (diff <? tolerance)%float then Some (scores, iterations, true)
      else iterate g d tolerance teleport n fuel' (iter + 1)%Z scores newScores iterations
  end.

(** [Compute] calculates the scores; [None] is a run-time panic. *)
Definition Compute (g : Graph) (config : ComputeConfig)
    : option (list float * Z * bool) :=
  let n := Size g in
  if n =? 0 then Some ([], 0%Z, true)
  else
    let d := DampingFactor config in
    let initialScore := (1 / float64 n)%float in
    let scores := replicate n initialScore in
    let teleport := ((1 - d) / float64 n)%float in
    let newScores := replicate n 0%float in
    iterate g d (Tolerance config) teleport n (Z.to_nat (MaxIterations config))
            0%Z scores newScores 0%Z.

(** The cycle A -> B -> C -> D -> E -> A. *)
Definition cycle5_edges : list (string * string) :=
  [("A", "B"); ("B", "C"); ("C", "D"); ("D", "E"); ("E", "A")]%string.

Definition cycle5 : Graph := default NewGraph (buildGraph cycle5_edges).

Lemma cycle5_is_cycle : is_directed_cycle cycle5 5.
Proof.
  split; [reflexivity|]. exists [0; 1; 2; 3; 4]. split; [reflexivity|].
  intros p i Hp. destruct p as [|[|[|[|[|p]]]]]; cbn in Hp; try discriminate;
    injection Hp as <-; eexists; (split; [reflexivity|]); reflexivity.
Qed.

(** The float64 numbers nearest to 0.3, to 1e-6 and to 1e-17, which is what
    these literals denote in Go. *)
Definition damping_0_3 : float := 0x1.3333333333333p-2.
Definition tolerance_1e_6 : float := 0x1.0c6f7a0b5ed8dp-20.
Definition tolerance_1e_17 : float := 0x1.70ef54646d497p-57.

(** The score that the passes below produce: 0.19999999999999998, the
    float64 just below [1/5]. *)
Definition below_fifth : float := 0x1.9999999999999p-3.

(** C5, as stated, fails in the arithmetic of the code.  On the 5-cycle with
    damping 0.3 the first pass moves every score from [1/5] to the float64
    just below it.  With the tolerance 1e-6 and 100 iterations allowed
    [Compute] converges, but the final scores are not [1/5]; with the
    tolerance 1e-17 and one iteration allowed it does not converge, because
    the difference of the first pass, a rounding error, is not below the
    tolerance. *)
Lemma Compute_cycle_rounding :
  is_directed_cycle cycle5 5 ∧
  Compute cycle5 (mkComputeConfig damping_0_3 100 tolerance_1e_6)
    = Some (replicate 5 below_fifth, 1%Z, true) ∧
  Compute cycle5 (mkComputeConfig damping_0_3 1 tolerance_1e_17)
    = Some (replicate 5 below_fifth, 1%Z, false) ∧
  (below_fifth =? 1 / float64 5)%float = false ∧
  (0 <? tolerance_1e_17)%float = true.
Proof.
  split; [apply cycle5_is_cycle|]. split_and!; vm_compute; reflexivity.
Qed.

End Float64.

(** ** Strings and URLs

    The Go programs use the standard packages [strings] and [net/url].  The
    [strings] helpers below follow the Go definitions on byte strings (a Go
    string is a sequence of bytes, read as UTF-8 where characters matter).
    [TrimSpace] trims the white space of [unicode.IsSpace]; [ToLower] lowers
    the ASCII letters only: the strings it is compared with (directive names,
    URL schemes) are ASCII. *)

Module GoStrings.

Definition HasPrefix (s prefix : string) : bool :=
  (String.length prefix <=? String.length s) &&
  String.eqb (String.substring 0 (String.length prefix) s) prefix.

Definition HasSuffix (s suffix : string) : bool :=
  (String.length suffix <=? String.length s) &&
  String.eqb (String.substring (String.length s - String.length suffix)
                               (String.length suffix) s) suffix.

Definition TrimSuffix (s suffix : string) : string :=
  if HasSuffix s suffix
  then String.substring 0 (String.length s - String.length suffix) s
  else s.

(** White space as [unicode.IsSpace] defines it, in UTF-8.  The characters
    of one byte are tab, line feed, vertical tab, form feed, carriage return
    and space; U+0085 and U+00A0 take two bytes; U+1680, U+2000 to U+200A,
    U+2028, U+2029, U+202F, U+205F and U+3000 take three. *)
Definition isSpace2 (b1 b2 : ascii) : bool :=
  (N_of_ascii b1 =? 0xC2)%N && ((N_of_ascii b2 =? 0x85)%N || (N_of_ascii b2 =? 0xA0)%N).

Definition isSpace3 (b1 b2 b3 : ascii) : bool :=
  let '(x, y, z) := (N_of_ascii b1, N_of_ascii b2, N_of_ascii b3) in
  ((x =? 0xE1) && (y =? 0x9A) && (z =? 0x80))%N ||
  ((x =? 0xE2) && (y =? 0x80) &&
   (((0x80 <=? z) && (z <=? 0x8A)) || (z =? 0xA8) || (z =? 0xA9) || (z =? 0xAF)))%N ||
  ((x =? 0xE2) && (y =? 0x81) && (z =? 0x9F))%N ||
  ((x =? 0xE3) && (y =? 0x80) && (z =? 0x80))%N.

(** [strings.TrimLeftFunc(s, unicode.IsSpace)]. *)
Fixpoint trimLeft (s : string) : string :=
  match s with
  | String b1 s1 =>
      if Ascii.is_space b1 then trimLeft s1
      else
        match s1 with
        | String b2 s2 =>
            if isSpace2 b1 b2 then trimLeft s2
            else
              match s2 with
              | String b3 s3 => if isSpace3 b1 b2 b3 then trimLeft s3 else s
              | EmptyString => s
              end
        | EmptyString => s
        end
  | EmptyString => EmptyString
  end.

(** [strings.TrimRightFunc(s, unicode.IsSpace)], on the reversed string: the
    last character is decoded from its last byte backwards. *)
Fixpoint trimLeftRev (s : string) : string :=
  match s with
  | String b1 s1 =>
      if Ascii.is_space b1 then trimLeftRev s1
      else
        match s1 with
        | String b2 s2 =>
            if isSpace2 b2 b1 then trimLeftRev s2
            else
              match s2 with
              | String b3 s3 => if isSpace3 b3 b2 b1 then trimLeftRev s3 else s
              | EmptyString => s
              end
        | EmptyString => s
        end
  | EmptyString => EmptyString
  end.

(** [strings.TrimSpace]: all leading and trailing white space removed. *)
Definition TrimSpace (s : string) : string :=
  String.rev (trimLeftRev (String.rev (trimLeft s))).

Definition lowerChar (c : ascii) : ascii :=
  let n := nat_of_ascii c in
  if (65 <=? n) && (n <=? 90) then ascii_of_nat (n + 32) else c.

Fixpoint ToLower (s : string) : string :=
  match s with
  | String c s' => String (lowerChar c) (ToLower s')
  | EmptyString => EmptyString
  end.

(** [Cut s sep] slices [s] around the first [sep] byte. *)
Fixpoint Cut (s : string) (sep : ascii) : option (string * string) :=
  match s with
  | EmptyString => None
  | String c s' =>
      if Ascii.eqb c sep then Some (EmptyString, s')
      else match Cut s' sep with
           | Some (before, after) => Some (String c before, after)
           | None => None
           end
  end.

(** [strings.SplitN(s, sep, 2)] for a one-byte separator. *)
Definition SplitN2 (s : string) (sep : ascii) : list string :=
  match Cut s sep with
  | Some (before, after) => [before; after]
  | None => [s]
  end.

Fixpoint anyByte (p : ascii → bool) (s : string) : bool :=
  match s with
  | String c s' => p c || anyByte p s'
  | EmptyString => false
  end.

(** Facts about slicing. *)

Ltac unfold_app :=
  repeat match goal with
         | |- context [String ?c ?a +:+ ?b] =>
             change (String c a +:+ b) with (String c (a +:+ b))
         | |- context [EmptyString +:+ ?b] => change (EmptyString +:+ b) with b
         end.

Lemma length_app (a b : string) :
  String.length (a +:+ b) = String.length a + String.length b.
Proof. induction a as [|c a IH]; unfold_app; cbn; [done|]. by rewrite IH. Qed.

Lemma substring_full (s : string) : String.substring 0 (String.length s) s = s.
Proof. induction s as [|c s IH]; cbn; [done|]. by rewrite IH. Qed.

Lemma substring_app_l (a b : string) :
  String.substring 0 (String.length a) (a +:+ b) = a.
Proof.
  induction a as [|c a IH]; unfold_app; cbn.
  - by destruct b.
  - by rewrite IH.
Qed.

Lemma substring_app_r (a b : string) :
  String.substring (String.length a) (String.length b) (a +:+ b) = b.
Proof.
  induction a as [|c a IH]; unfold_app; cbn [String.length String.substring];
    [apply substring_full | done].
Qed.

Lemma substring_split (s : string) (n : nat) :
  n ≤ String.length s →
  s = String.substring 0 n s +:+ String.substring n (String.length s - n) s.
Proof.
  revert n. induction s as [|c s IH]; intros n Hn; cbn in *.
  - by destruct n.
  - destruct n as [|n]; cbn; unfold_app.
    + by rewrite substring_full.
    + rewrite <- IH by lia. done.
Qed.

Lemma HasPrefix_iff (s prefix : string) :
  HasPrefix s prefix = true ↔ ∃ rest, s = prefix +:+ rest.
Proof.
  unfold HasPrefix. rewrite andb_true_iff, Nat.leb_le, String.eqb_eq. split.
  - intros [Hlen Hsub]. eexists.
    rewrite (substring_split s (String.length prefix) Hlen) at 1. by rewrite Hsub.
  - intros [rest ->]. rewrite length_app, substring_app_l. split; [lia|done].
Qed.

Lemma HasSuffix_app (a suffix : string) : HasSuffix (a +:+ suffix) suffix = true.
Proof.
  unfold HasSuffix. rewrite length_app.
  replace (String.length a + String.length suffix - String.length suffix)
    with (String.length a) by lia.
  rewrite substring_app_r, String.eqb_refl, andb_true_r. apply Nat.leb_le. lia.
Qed.

Lemma TrimSuffix_app (a suffix : string) : TrimSuffix (a +:+ suffix) suffix = a.
Proof.
  unfold TrimSuffix. rewrite HasSuffix_app, length_app.
  replace (String.length a + String.length suffix - String.length suffix)
    with (String.length a) by lia.
  apply substring_app_l.
Qed.

Lemma HasSuffix_app_other (a : string) (c c' : ascii) :
  c ≠ c' → HasSuffix (a +:+ String c "") (String c' "") = false.
Proof.
  intros Hne. unfold HasSuffix. rewrite length_app. cbn [String.length].
  replace (String.length a + 1 - 1) with (String.length a) by lia.
  pose proof (substring_app_r a (String c "")) as Hsub. cbn [String.length] in Hsub.
  rewrite Hsub. cbn.
  destruct (Ascii.eqb_spec c c'); [done|]. apply andb_false_r.
Qed.

End GoStrings.

Module URLs.
Import GoStrings.

(** The fields of [url.URL] that the programs read. *)
Record URL := mkURL { Scheme : string; Host : string; Path : string }.

(** *** A reference instance of [url.Parse]

    The models below take [url.Parse] as a parameter.  For the concrete
    examples we use this instance, which follows [net/url] on URLs made of an
    optional scheme, an optional [//authority], a path without
    percent-escapes, and an optional query and fragment. *)

Definition isCTL (c : ascii) : bool :=
  let n := nat_of_ascii c in (n <? 32) || (n =? 127).

Definition isLetter (c : ascii) : bool :=
  let n := nat_of_ascii c in
  ((97 <=? n) && (n <=? 122)) || ((65 <=? n) && (n <=? 90)).

Definition isSchemeExtra (c : ascii) : bool :=
  let n := nat_of_ascii c in
  ((48 <=? n) && (n <=? 57)) || (n =? 43) || (n =? 45) || (n =? 46).

(** [getScheme]: [None] is the error "missing protocol scheme"; otherwise
    the scheme (possibly empty) and the rest. *)
Fixpoint getScheme_from (first : bool) (whole s : string) : option (string * string) :=
  match s with
  | EmptyString => Some (EmptyString, whole)
  | String c s' =>
      if isLetter c then
        match getScheme_from false whole s' with
        | Some (EmptyString, _) => Some (EmptyString, whole)
        | Some (scheme, rest) => Some (String c scheme, rest)
        | None => None
        end
      else if isSchemeExtra c then
        if first then Some (EmptyString, whole)
        else match getScheme_from false whole s' with
             | Some (EmptyString, _) => Some (EmptyString, whole)
             | Some (scheme, rest) => Some (String c scheme, rest)
             | None => None
             end
      else if Ascii.eqb c ":" then
        if first then None else Some (":"%string, s')
      else Some (EmptyString, whole)
  end.

Definition getScheme (rawURL : string) : option (string * string) :=
  match getScheme_from true rawURL rawURL with
  | Some (EmptyString, rest) => Some (EmptyString, rest)
  | Some (scheme, rest) =>
      (* drop the ":" marker that ends a found scheme *)
      Some (String.substring 0 (String.length scheme - 1) scheme, rest)
  | None => None
  end.

Definition before (s : string) (sep : ascii) : string :=
  match Cut s sep with Some (b, _) => b | None => s end.

Definition afterLast (s : string) (sep : ascii) : string :=
  String.rev (before (String.rev s) sep).

Definition simple_url_Parse (rawURL : string) : option URL :=
  let u := before rawURL "#" in
  if anyByte isCTL u then None
  else
    match getScheme u with
    | None => None
    | Some (scheme, rest) =>
        let scheme := ToLower scheme in
        let rest := before rest "?" in
        if negb (HasPrefix rest "/") then
          if negb (String.eqb scheme "") then Some (mkURL scheme "" "")
          else if anyByte (Ascii.eqb ":") (before rest "/") then None
          else Some (mkURL "" "" rest)
        else if HasPrefix rest "//" then
          let r := String.substring 2 (String.length rest - 2) rest in
          let authority := before r "/" in
          let path :=
            String.substring (String.length authority)
                             (String.length r - String.length authority) r in
          Some (mkURL scheme (afterLast authority "@") path)
        else Some (mkURL scheme "" rest)
    end.

End URLs.

Module URLTests.
Import URLs.
Example t1 : simple_url_Parse "https://site.com/a/b?x=1#f" = Some (mkURL "https" "site.com" "/a/b").
Proof. vm_compute. reflexivity. Qed.
Example t2 : simple_url_Parse "https://site.com" = Some (mkURL "https" "site.com" "").
Proof. vm_compute. reflexivity. Qed.
Example t3 : simple_url_Parse ":bad" = None.
Proof. vm_compute. reflexivity. Qed.
Example t4 : simple_url_Parse "mailto:a@b.com" = Some (mkURL "mailto" "" "").
Proof. vm_compute. reflexivity. Qed.
Example t5 : simple_url_Parse "/page" = Some (mkURL "" "" "/page").
Proof. vm_compute. reflexivity. Qed.
Example t6 : simple_url_Parse "HTTP://u:p@Site.com:80/x" = Some (mkURL "http" "Site.com:80" "/x").
Proof. vm_compute. reflexivity. Qed.
Example t7 : simple_url_Parse "a:b/c" = Some (mkURL "a" "" "").
Proof. vm_compute. reflexivity. Qed.
Example t8 : simple_url_Parse "1a:b" = None.
Proof. vm_compute. reflexivity. Qed.
Example t9 : simple_url_Parse "ftp://files.site.com/x" = Some (mkURL "ftp" "files.site.com" "/x").
Proof. vm_compute. reflexivity. Qed.
Example t10 : GoStrings.TrimSpace "  a b  " = "a b".
Proof. vm_compute. reflexivity. Qed.
(** A no-break space (U+00A0, bytes C2 A0) and an ideographic space (U+3000,
    bytes E3 80 80) are trimmed; an inverted exclamation mark (U+00A1, bytes
    C2 A1) is not. *)
Example t10a :
  GoStrings.TrimSpace (String "194" (String "160" ("* " +:+ String "227" (String "128" (String "128" ""))))) = "*".
Proof. vm_compute. reflexivity. Qed.
Example t10b :
  GoStrings.TrimSpace (String "194" (String "161" " ")) = String "194" (String "161" "").
Proof. vm_compute. reflexivity. Qed.
Example t11 : GoStrings.SplitN2 "User-agent: *" ":" = ["User-agent"; " *"].
Proof. vm_compute. reflexivity. Qed.
Example t12 : GoStrings.HasSuffix "/a/*" "*" = true.
Proof. vm_compute. reflexivity. Qed.
Example t13 : GoStrings.TrimSuffix "/a/*" "*" = "/a/".
Proof. vm_compute. reflexivity. Qed.
End URLTests.

(** ** The robots.txt checker ([internal/indexer/robots.go]) *)

Module Robots.
Import GoStrings URLs.

Record disallowRule := mkRule { path : string }.

Record RobotsChecker := mkChecker {
  rules : list disallowRule;
  loaded : bool;
  loadError : option string
}.

Definition NewRobotsChecker : RobotsChecker :=
  {| rules := []; loaded := false; loadError := None |}.

(** What the HTTP client and the line scanner deliver to [Load]: either
    [client.Get] fails, or a response arrives with a status code and a body,
    which [bufio.Scanner] cuts into lines until the end of the body or until
    a scan error ([scanner.Err()]). *)
Inductive GetResult :=
  | GetError (err : string)
  | GetResponse (StatusCode : Z) (lines : list string) (scanErr : option string).

(** One turn of the scanning loop; the state is [inUserAgentAll] and the
    rules collected so far. *)
Definition scanLine (st : bool * list disallowRule) (text : string)
    : bool * list disallowRule :=
  let '(inUserAgentAll, rs) := st in
  let line := TrimSpace text in
  if String.eqb line "" || HasPrefix line "#" then st
  else
    match SplitN2 line ":" with
    | [part0; part1] =>
        let directive := ToLower (TrimSpace part0) in
        let value := TrimSpace part1 in
        if String.eqb directive "user-agent" then (String.eqb value "*", rs)
        else if String.eqb directive "disallow" then
          if inUserAgentAll && negb (String.eqb value "")
          then (inUserAgentAll, rs ++ [mkRule value])
          else st
        else st
    | _ => st
    end.

(** [Load] returns the updated checker and the error it reports. *)
Definition Load (r : RobotsChecker) (resp : GetResult)
    : RobotsChecker * option string :=
  match resp with
  | GetError err =>
      ({| rules := rules r; loaded := loaded r; loadError := Some err |}, Some err)
  | GetResponse status lines scanErr =>
      if negb (status =? 200)%Z then
        ({| rules := rules r; loaded := true; loadError := loadError r |}, None)
      else
        let '(_, rs) := foldl scanLine (false, rules r) lines in
        ({| rules := rs; loaded := true; loadError := loadError r |}, scanErr)
  end.

(** [matchesRule] checks if a path matches a robots.txt rule. *)
Definition matchesRule (path rule : string) : bool :=
  if HasSuffix rule "*" then HasPrefix path (TrimSuffix rule "*")
  else if HasSuffix rule "$" then String.eqb path (TrimSuffix rule "$")
  else HasPrefix path rule.

(** [GetRules] returns the parsed disallow rules. *)
Definition GetRules (r : RobotsChecker) : list string :=
  map (fun rule => ("Disallow: " +:+ path rule)%string) (rules r).

(** The three forms of a rule: [p*] blocks the paths that start with [p],
    [p$] blocks the path [p] alone, and any other rule blocks the paths that
    start with it. *)
Theorem matchesRule_forms (path p rule : string) :
  (matchesRule path (p +:+ "*") = true ↔ ∃ rest, path = p +:+ rest) ∧
  (matchesRule path (p +:+ "$") = true ↔ path = p) ∧
  (HasSuffix rule "*" = false → HasSuffix rule "$" = false →
   (matchesRule path rule = true ↔ ∃ rest, path = rule +:+ rest)).
Proof.
  split_and!.
  - unfold matchesRule. rewrite HasSuffix_app, TrimSuffix_app. apply HasPrefix_iff.
  - unfold matchesRule. rewrite (HasSuffix_app_other p "$" "*") by done.
    rewrite HasSuffix_app, TrimSuffix_app. apply String.eqb_eq.
  - intros H1 H2. unfold matchesRule. rewrite H1, H2. apply HasPrefix_iff.
Qed.

Lemma matchesRule_forms_witness :
  matchesRule "/private/x" "/private" = true ↔
  ∃ rest, "/private/x"%string = ("/private" +:+ rest)%string.
Proof.
  apply (proj2 (proj2 (matchesRule_forms "/private/x" "" "/private"))).
  - vm_compute. reflexivity.
  - vm_compute. reflexivity.
Defined.

(** What one line can do: leave the rules alone or append one rule with a
    non-empty path; and rules are appended only while [inUserAgentAll] is
    set. *)
Lemma scanLine_appends (flag : bool) (rs : list disallowRule) (text : string) :
  ∃ added, (scanLine (flag, rs) text).2 = rs ++ added ∧
           Forall (fun rule => path rule ≠ ""%string) added ∧
           (flag = false → added = []) ∧
           (scanLine (flag, rs) text).1 =
             (if (scanLine (false, []) text).1 then true
              else flag && (scanLine (true, []) text).1).
Proof.
  unfold scanLine.
  destruct (String.eqb (TrimSpace text) "" || HasPrefix (TrimSpace text) "#").
  { exists []. rewrite app_nil_r. cbn. by destruct flag. }
  destruct (SplitN2 (TrimSpace text) ":") as [|part0 [|part1 [|? ?]]];
    try (exists []; rewrite app_nil_r; cbn; by destruct flag).
  destruct (String.eqb (ToLower (TrimSpace part0)) "user-agent").
  { exists []. rewrite app_nil_r. cbn.
    destruct (String.eqb (TrimSpace part1) "*"), flag; done. }
  destruct (String.eqb (ToLower (TrimSpace part0)) "disallow").
  - destruct flag; cbn.
    + destruct (String.eqb_spec (TrimSpace part1) ""); cbn.
      * exists []. by rewrite app_nil_r.
      * exists [mkRule (TrimSpace part1)]. split_and!; [done| |done|done].
        by constructor.
    + exists []. by rewrite app_nil_r.
  - exists []. rewrite app_nil_r. cbn. by destruct flag.
Qed.

Lemma scan_appends (lines : list string) : ∀ (flag : bool) (rs : list disallowRule),
  ∃ added, (foldl scanLine (flag, rs) lines).2 = rs ++ added ∧
           Forall (fun rule => path rule ≠ ""%string) added ∧
           (flag = false →
            Forall (fun text => (scanLine (false, []) text).1 = false) lines →
            added = []).
Proof.
  induction lines as [|text lines IH]; intros flag rs; cbn [foldl].
  - exists []. by rewrite app_nil_r.
  - destruct (scanLine_appends flag rs text) as (a1 & H1 & F1 & N1 & Hflag).
    destruct (scanLine (flag, rs) text) as [flag' rs'] eqn:E.
    cbn [fst snd] in H1, Hflag.
    destruct (IH flag' rs') as (a2 & H2 & F2 & N2).
    exists (a1 ++ a2). split_and!.
    + rewrite H2, H1. by rewrite app_assoc.
    + by apply Forall_app.
    + intros -> Hall. apply Forall_cons in Hall as [Hhead Htail].
      rewrite (N1 eq_refl). rewrite N2; [done| |done].
      rewrite Hflag, Hhead. done.
Qed.

Lemma Load_keeps (r : RobotsChecker) (resp : GetResult) :
  (∃ added, rules (Load r resp).1 = rules r ++ added) ∧
  (loaded r = true → loaded (Load r resp).1 = true).
Proof.
  destruct resp as [err|status lines scanErr]; cbn.
  - split; [|done]. exists []. by rewrite app_nil_r.
  - destruct (scan_appends lines false (rules r)) as (added & Ha & _).
    destruct (status =? 200)%Z; cbn.
    + destruct (foldl scanLine (false, rules r) lines) as [flag rs]. cbn in *.
      split; [by exists added | done].
    + split; [|done]. exists []. by rewrite app_nil_r.
Qed.

(** [Load] only ever appends rules, each with a non-empty path, and never
    clears the [loaded] flag; a failed request and a status other than 200
    leave the rules as they were; and a robots.txt without a
    [User-agent: *] line yields no rule, whatever it disallows. *)
Theorem Load_only_appends (r : RobotsChecker) (resp : GetResult) :
  (∃ added, rules (Load r resp).1 = rules r ++ added ∧
            Forall (fun rule => path rule ≠ ""%string) added) ∧
  (loaded r = true → loaded (Load r resp).1 = true) ∧
  (∀ err, resp = GetError err →
     rules (Load r resp).1 = rules r ∧ loaded (Load r resp).1 = loaded r) ∧
  (∀ status lines scanErr, resp = GetResponse status lines scanErr →
     loaded (Load r resp).1 = true ∧
     (status ≠ 200%Z → rules (Load r resp).1 = rules r) ∧
     (Forall (fun text => (scanLine (false, []) text).1 = false) lines →
      rules (Load r resp).1 = rules r)).
Proof.
  destruct resp as [err|status lines scanErr].
  - cbn. split; [|split; [|split]].
    + exists []. split; [by rewrite app_nil_r | constructor].
    + done.
    + done.
    + intros ? ? ? [=].
  - destruct (scan_appends lines false (rules r)) as (added & Ha & Hf & Hn).
    unfold Load. destruct (status =? 200)%Z eqn:E; cbn [negb].
    + destruct (foldl scanLine (false, rules r) lines) as [flag rs] eqn:Es.
      cbn in *. split; [|split; [|split]].
      * by exists added.
      * done.
      * intros ? [=].
      * intros ? ? ? [= <- <- <-]. split; [done|]. split.
        -- intros Hs. apply Z.eqb_eq in E. done.
        -- intros Hall. rewrite Ha, Hn; [by rewrite app_nil_r|done|done].
    + cbn. split; [|split; [|split]].
      * exists []. split; [by rewrite app_nil_r | constructor].
      * done.
      * intros ? [=].
      * intros ? ? ? [= <- <- <-]. done.
Qed.

Lemma Load_only_appends_witness :
  rules (Load NewRobotsChecker
              (GetResponse 200 ["User-agent: googlebot"; "Disallow: /private"] None)).1
    = rules NewRobotsChecker.
Proof.
  apply (proj2 (proj2 (proj2 (Load_only_appends NewRobotsChecker
           (GetResponse 200 ["User-agent: googlebot"; "Disallow: /private"] None))))
         200%Z ["User-agent: googlebot"; "Disallow: /private"]%string None eq_refl).
  repeat constructor.
Defined.

Section WithParser.
Variable url_Parse : string → option URL.

(** The path that [IsBlocked] tests. *)
Definition pathOf (u : URL) : string :=
  if String.eqb (Path u) "" then "/"%string else Path u.

Definition IsBlocked (r : RobotsChecker) (targetURL : string) : bool :=
  if negb (loaded r) || (length (rules r) =? 0) then false
  else
    match url_Parse targetURL with
    | None => false
    | Some parsed =>
        existsb (fun rule => matchesRule (pathOf parsed) (path rule)) (rules r)
    end.

(** C9 (as the code has it). [IsBlocked] answers [false] for every URL on a
    checker that was never loaded (the [loaded] flag is unset), on a checker
    that holds no rule, and for a URL that does not parse.  A [Load] whose
    HTTP request failed returns the error and leaves rules and flag, hence
    every answer of [IsBlocked], as they were; a [Load] that received a
    status other than 200 returns no error and leaves the rules as they were,
    so that on a checker without rules, a new one in particular, [IsBlocked]
    still answers [false].  [IsBlocked] answers [true] only if the [loaded]
    flag is set and some rule matches the path.  A [Load] whose scan of the
    body ends with an error returns that error and leaves the checker as the
    same lines without the error would: [loaded] is set and the rules read
    before the error are kept, after the rules that were there. *)
Theorem IsBlocked_fail_open (r : RobotsChecker) (targetURL : string) :
  IsBlocked NewRobotsChecker targetURL = false ∧
  (loaded r = false → IsBlocked r targetURL = false) ∧
  (rules r = [] → IsBlocked r targetURL = false) ∧
  (url_Parse targetURL = None → IsBlocked r targetURL = false) ∧
  (∀ err,
     (Load r (GetError err)).2 = Some err ∧
     rules (Load r (GetError err)).1 = rules r ∧
     loaded (Load r (GetError err)).1 = loaded r ∧
     IsBlocked (Load r (GetError err)).1 targetURL = IsBlocked r targetURL ∧
     IsBlocked (Load NewRobotsChecker (GetError err)).1 targetURL = false) ∧
  (∀ status lines scanErr, status ≠ 200%Z →
     (Load r (GetResponse status lines scanErr)).2 = None ∧
     rules (Load r (GetResponse status lines scanErr)).1 = rules r ∧
     (rules r = [] →
      IsBlocked (Load r (GetResponse status lines scanErr)).1 targetURL = false) ∧
     IsBlocked (Load NewRobotsChecker (GetResponse status lines scanErr)).1 targetURL
       = false) ∧
  (IsBlocked r targetURL = true →
     loaded r = true ∧
     ∃ parsed rule, url_Parse targetURL = Some parsed ∧ rule ∈ rules r ∧
                    matchesRule (pathOf parsed) (path rule) = true) ∧
  (∀ lines err,
     (Load r (GetResponse 200 lines (Some err))).2 = Some err ∧
     (Load r (GetResponse 200 lines (Some err))).1 =
       (Load r (GetResponse 200 lines None)).1 ∧
     loaded (Load r (GetResponse 200 lines (Some err))).1 = true ∧
     rules (Load r (GetResponse 200 lines (Some err))).1 =
       (foldl scanLine (false, rules r) lines).2 ∧
     ∃ added, rules (Load r (GetResponse 200 lines (Some err))).1 = rules r ++ added).
Proof.
  assert (Hempty : ∀ c, rules c = [] → IsBlocked c targetURL = false).
  { intros c Hc. unfold IsBlocked. rewrite Hc. cbn. by rewrite orb_true_r. }
  split_and!.
  - reflexivity.
  - intros Hl. unfold IsBlocked. by rewrite Hl.
  - apply Hempty.
  - intros Hp. unfold IsBlocked. rewrite Hp. by destruct (_ || _).
  - intros err. split_and!; reflexivity.
  - intros status lines scanErr Hs. unfold Load.
    destruct (status =? 200)%Z eqn:E; [apply Z.eqb_eq in E; done|]. cbn.
    split_and!; [done | done | | done]. intros Hr. by apply Hempty.
  - unfold IsBlocked. destruct (loaded r); cbn; [|done].
    destruct (length (rules r) =? 0); [done|].
    destruct (url_Parse targetURL) as [parsed|]; [|done].
    intros (rule & Hin & Hm)%existsb_exists. split; [done|].
    exists parsed, rule. split_and!; [done| |done]. by apply list_elem_of_In.
  - intros lines err.
    destruct (scan_appends lines false (rules r)) as (added & Ha & _).
    cbn. destruct (foldl scanLine (false, rules r) lines) as [flag rs]. cbn in *.
    split_and!; [done | done | done | done | by exists added].
Qed.

(** Once blocked, always blocked: whatever a later [Load] receives, a URL
    that [IsBlocked] reports stays reported. *)
Theorem IsBlocked_persistent (r : RobotsChecker) (resp : GetResult)
    (targetURL : string) :
  IsBlocked r targetURL = true → IsBlocked (Load r resp).1 targetURL = true.
Proof.
  destruct (Load_keeps r resp) as ((added & Ha) & Hl).
  unfold IsBlocked. destruct (loaded r); cbn; [|done]. rewrite (Hl eq_refl). cbn.
  rewrite Ha. destruct (rules r) as [|rule rs] eqn:Er; [done|].
  cbn [app length Nat.eqb].
  destruct (url_Parse targetURL) as [parsed|]; [|done].
  change (rule :: rs ++ added) with ((rule :: rs) ++ added).
  rewrite existsb_app. intros ->. done.
Qed.

End WithParser.

Lemma IsBlocked_fail_open_witness :
  IsBlocked simple_url_Parse (mkChecker [mkRule "/private"] false None)
            "https://site.com/private/x" = false ∧
  IsBlocked simple_url_Parse (mkChecker [] true None) "https://site.com/private/x"
    = false ∧
  IsBlocked simple_url_Parse (mkChecker [mkRule "/private"] true None) "1a:b" = false ∧
  IsBlocked simple_url_Parse
            (Load NewRobotsChecker
                  (GetResponse 404 ["User-agent: *"; "Disallow: /private"] None)).1
            "https://site.com/private/x" = false ∧
  (loaded (mkChecker [mkRule "/private"] true None) = true ∧
   ∃ parsed rule,
     simple_url_Parse "https://site.com/private/x" = Some parsed ∧
     rule ∈ rules (mkChecker [mkRule "/private"] true None) ∧
     matchesRule (pathOf parsed) (path rule) = true).
Proof.
  split; [|split; [|split; [|split]]].
  - apply (proj1 (proj2 (IsBlocked_fail_open simple_url_Parse
             (mkChecker [mkRule "/private"] false None) "https://site.com/private/x"))).
    reflexivity.
  - apply (proj1 (proj2 (proj2 (IsBlocked_fail_open simple_url_Parse
             (mkChecker [] true None) "https://site.com/private/x")))).
    reflexivity.
  - apply (proj1 (proj2 (proj2 (proj2 (IsBlocked_fail_open simple_url_Parse
             (mkChecker [mkRule "/private"] true None) "1a:b"))))).
    vm_compute. reflexivity.
  - apply (proj1 (proj2 (proj2 (proj2 (proj2 (proj2
             (IsBlocked_fail_open simple_url_Parse NewRobotsChecker
                "https://site.com/private/x"))))))
             404%Z ["User-agent: *"; "Disallow: /private"]%string None).
    lia.
  - apply (proj1 (proj2 (proj2 (proj2 (proj2 (proj2 (proj2
             (IsBlocked_fail_open simple_url_Parse
                (mkChecker [mkRule "/private"] true None)
                "https://site.com/private/x")))))))).
    vm_compute. reflexivity.
Defined.

(** A robots.txt whose scan ends with an error after two good lines. *)
Definition truncated_robots : GetResult :=
  GetResponse 200 ["User-agent: *"; "Disallow: /private"]
              (Some "bufio.Scanner: token too long").

(** C9, as stated, fails: [Load] returns an error, yet the rules read before
    the error stay in force and [IsBlocked] reports a URL as blocked. *)
Lemma Load_error_still_blocks :
  (Load NewRobotsChecker truncated_robots).2 = Some "bufio.Scanner: token too long" ∧
  IsBlocked simple_url_Parse (Load NewRobotsChecker truncated_robots).1
            "https://site.com/private/x" = true.
Proof. split; vm_compute; reflexivity. Qed.

Lemma IsBlocked_persistent_witness :
  IsBlocked simple_url_Parse
            (Load (mkChecker [mkRule "/private"] true None) (GetError "timeout")).1
            "https://site.com/private/x" = true.
Proof.
  apply (IsBlocked_persistent simple_url_Parse
           (mkChecker [mkRule "/private"] true None) (GetError "timeout")
           "https://site.com/private/x").
  vm_compute. reflexivity.
Defined.

End Robots.

(** ** The crawl engine ([internal/crawler/crawler.go])

    The crawler is a concurrent program: a pool of worker goroutines, a
    monitor goroutine and the caller of [Crawl] share the visited map, the
    semaphore and the task channel.  It is modelled by a small-step
    semantics whose steps are the atomic actions of the goroutines (one
    channel operation or one critical section each); a run is driven by a
    schedule, a list of events saying which goroutine moves next and, for an
    HTTP request, what the network answers.  The model covers a crawl until
    the monitor closes [done], which is when [Crawl] returns. *)

Module Crawler.
Import GoStrings URLs.

Record Config := mkConfig {
  Concurrency : Z;
  Timeout : Z;         (* a duration, in nanoseconds *)
  MaxDepth : Z;        (* 0 means unlimited *)
  Verbose : bool
}.

Definition DefaultConfig : Config :=
  {| Concurrency := 10; Timeout := 10 * 1000000000; MaxDepth := 0; Verbose := false |}.

(** [internal/crawler/result.go] *)
Record BrokenLink := mkBrokenLink {
  SourceURL : string;
  BrokenURL : string;
  StatusCode : Z;
  Error : string
}.

Record CrawlResult := mkCrawlResult {
  StartURL : string;
  TotalVisited : Z;
  BrokenLinks : list BrokenLink
}.

(** [urlTask] represents a URL to be crawled with its metadata. *)
Record urlTask := mkTask {
  url : string;
  sourceURL : string;
  depth : Z
}.

(** The capacity of the task channel, [make(chan urlTask, 1000)], and the
    threshold of the monitor's safety check. *)
Definition tasksCapacity : nat := 1000.
Definition safetyThreshold : Z := 10000.

(** What one HTTP request delivers: [client.Do] fails, or a response arrives
    with a status code and a content type; [links] is what [ExtractLinks]
    returns for its body. *)
Inductive FetchOutcome :=
  | NetError (msg : string)
  | Response (status : Z) (contentType : string) (links : list string).

(** Where a worker goroutine stands. *)
Inductive workerState :=
  | Idle                                  (* in [worker], at the [select] *)
  | Acquiring (task : urlTask)            (* in [processURL], before the semaphore *)
  | Holding (task : urlTask)              (* slot held, before the depth check *)
  | Requesting (task : urlTask)           (* request built, before [client.Do] *)
  | Queueing (task : urlTask) (links : list string)
                                          (* in the loop over [links] *)
  | Marking (task : urlTask) (link : string) (rest : list string)
                                          (* [shouldVisit] said yes *)
  | Sending (task : urlTask) (link : string) (rest : list string).
                                          (* marked, before the [select] *)

(** Where the monitor goroutine stands. *)
Inductive monitorState :=
  | Sleeping
  | Rechecking (visitedCount : Z)         (* in the 500ms grace sleep *)
  | Done.                                 (* [done] is closed *)

Record State := mkState {
  config : Config;
  baseURL : URL;
  visited : gmap string bool;
  broken : list BrokenLink;
  semaphore : nat;                        (* slots in use, [len(c.semaphore)] *)
  tasks : list urlTask;                   (* content of the channel *)
  workers : list workerState;
  monitor : monitorState;
  fetched : list urlTask                  (* log of the requests sent *)
}.

Definition setWorker (s : State) (w : nat) (ws : workerState) : State :=
  mkState (config s) (baseURL s) (visited s) (broken s) (semaphore s) (tasks s)
          (<[w := ws]> (workers s)) (monitor s) (fetched s).

Definition setTasks (s : State) (q : list urlTask) : State :=
  mkState (config s) (baseURL s) (visited s) (broken s) (semaphore s) q
          (workers s) (monitor s) (fetched s).

Definition setMonitor (s : State) (m : monitorState) : State :=
  mkState (config s) (baseURL s) (visited s) (broken s) (semaphore s) (tasks s)
          (workers s) m (fetched s).

Definition acquire (s : State) : State :=
  mkState (config s) (baseURL s) (visited s) (broken s) (S (semaphore s)) (tasks s)
          (workers s) (monitor s) (fetched s).

(** The deferred [<-c.semaphore]. *)
Definition release (s : State) : State :=
  mkState (config s) (baseURL s) (visited s) (broken s) (pred (semaphore s)) (tasks s)
          (workers s) (monitor s) (fetched s).

Definition logFetch (s : State) (task : urlTask) : State :=
  mkState (config s) (baseURL s) (visited s) (broken s) (semaphore s) (tasks s)
          (workers s) (monitor s) (fetched s ++ [task]).

(** [markVisited] marks a URL as visited. *)
Definition markVisited (s : State) (u : string) : State :=
  mkState (config s) (baseURL s) (<[u := true]> (visited s)) (broken s)
          (semaphore s) (tasks s) (workers s) (monitor s) (fetched s).

(** [addBrokenLink] adds a broken link to the results. *)
Definition addBrokenLink (s : State) (sourceURL brokenURL : string)
    (statusCode : Z) (errMsg : string) : State :=
  mkState (config s) (baseURL s) (visited s)
          (broken s ++ [mkBrokenLink sourceURL brokenURL statusCode errMsg])
          (semaphore s) (tasks s) (workers s) (monitor s) (fetched s).

(** [isHTML] checks if the content type indicates HTML content. *)
Definition isHTML (contentType : string) : bool :=
  HasPrefix contentType "text/html" || HasPrefix contentType "application/xhtml+xml".

Inductive event :=
  | Step (w : nat)                        (* worker [w] takes its next step *)
  | Do (w : nat) (o : FetchOutcome)       (* the request of worker [w] completes *)
  | Poll.                                 (* the monitor wakes up *)

Inductive CrawlReturn :=
  | Fails (err : string)                  (* [nil, err] *)
  | Succeeds (r : CrawlResult)            (* [result, nil] *)
  | Running.                              (* [done] is not closed yet *)

Section WithParser.
Variable url_Parse : string → option URL.
(** The text of the error that [http.NewRequestWithContext] reports for a URL
    that does not parse, and of the error of [url.Parse] on the seed. *)
Variable errorText : string → string.

(** [IsSameDomain] ([internal/crawler/parser.go]). *)
Definition IsSameDomain (targetURL : string) (base : URL) : bool :=
  match url_Parse targetURL with
  | None => false
  | Some parsed => String.eqb (Host parsed) (Host base)
  end.

(** [shouldVisit] checks if a URL should be visited; reading a missing key
    of the map gives [false]. *)
Definition shouldVisit (s : State) (targetURL : string) : bool :=
  if negb (IsSameDomain targetURL (baseURL s)) then false
  else negb (default false (visited s !! targetURL)).

(** A step of worker [w]; [None] when the worker is blocked (or must wait for
    the network). *)
Definition step_worker (s : State) (w : nat) : option State :=
  ws ← workers s !! w;
  match ws with
  | Idle =>
      match tasks s with
      | [] => None
      | task :: q => Some (setWorker (setTasks s q) w (Acquiring task))
      end
  | Acquiring task =>
      if (Z.of_nat (semaphore s) <? Concurrency (config s))%Z
      then Some (setWorker (acquire s) w (Holding task))
      else None
  | Holding task =>
      if (0 <? MaxDepth (config s))%Z && (MaxDepth (config s) <? depth task)%Z
      then Some (setWorker (release s) w Idle)
      else
        match url_Parse (url task) with
        | None =>
            Some (setWorker
                    (release (addBrokenLink s (sourceURL task) (url task) 0
                                            (errorText (url task)))) w Idle)
        | Some _ => Some (setWorker s w (Requesting task))
        end
  | Requesting task => None
  | Queueing task [] => Some (setWorker (release s) w Idle)
  | Queueing task (link :: rest) =>
      if shouldVisit s link then Some (setWorker s w (Marking task link rest))
      else Some (setWorker s w (Queueing task rest))
  | Marking task link rest =>
      Some (setWorker (markVisited s link) w (Sending task link rest))
  | Sending task link rest =>
      (* try to send task, skip if channel is full *)
      let s' :=
        if length (tasks s) <? tasksCapacity
        then setTasks s (tasks s ++ [mkTask link (url task) (depth task + 1)])
        else s in
      Some (setWorker s' w (Queueing task rest))
  end.

(** The request of worker [w] completes with outcome [o]. *)
Definition step_do (s : State) (w : nat) (o : FetchOutcome) : option State :=
  ws ← workers s !! w;
  match ws with
  | Requesting task =>
      let s := logFetch s task in
      match o with
      | NetError msg =>
          let s := if negb (String.eqb (sourceURL task) "")
                   then addBrokenLink s (sourceURL task) (url task) 0 msg
                   else s in
          Some (setWorker (release s) w Idle)
      | Response status contentType links =>
          if (400 <=? status)%Z then
            let s := if negb (String.eqb (sourceURL task) "")
                     then addBrokenLink s (sourceURL task) (url task) status ""
                     else addBrokenLink s (url task) (url task) status
                                        "start URL returned error" in
            Some (setWorker (release s) w Idle)
          else if negb (isHTML contentType) then Some (setWorker (release s) w Idle)
          else Some (setWorker s w (Queueing task links))
      end
  | _ => None
  end.

(** A wake-up of the monitor goroutine. *)
Definition step_monitor (s : State) : option State :=
  let idle := (length (tasks s) =? 0) && (semaphore s =? 0) in
  match monitor s with
  | Sleeping =>
      let visitedCount := Z.of_nat (size (visited s)) in
      if idle then Some (setMonitor s (Rechecking visitedCount))
      else if (safetyThreshold <? visitedCount)%Z then Some (setMonitor s Done)
      else Some s
  | Rechecking visitedCount =>
      if idle then Some (setMonitor s Done)
      else if (safetyThreshold <? visitedCount)%Z then Some (setMonitor s Done)
      else Some (setMonitor s Sleeping)
  | Done => None
  end.

(** One event; a goroutine that cannot move leaves the state as it is, and
    nothing moves in the model once [done] is closed. *)
Definition step (s : State) (e : event) : State :=
  match monitor s with
  | Done => s
  | _ =>
      default s
        match e with
        | Step w => step_worker s w
        | Do w o => step_do s w o
        | Poll => step_monitor s
        end
  end.

Definition run (schedule : list event) (s : State) : State :=
  foldl step s schedule.

(** [New] creates a crawler; [make] panics on a negative capacity. *)
Record Crawler := mkCrawler {
  c_config : Config;
  c_visited : gmap string bool;
  c_broken : list BrokenLink
}.

Definition New (config : Config) : option Crawler :=
  if (Concurrency config <? 0)%Z then None
  else Some {| c_config := config; c_visited := ∅; c_broken := [] |}.

(** The state in which the goroutines start, after [Crawl] has accepted the
    seed, marked it and sent the first task. *)
Definition start (c : Crawler) (startURL : string) (parsed : URL) : State :=
  {| config := c_config c;
     baseURL := parsed;
     visited := <[startURL := true]> (c_visited c);
     broken := c_broken c;
     semaphore := 0;
     tasks := [mkTask startURL "" 0];
     workers := replicate (Z.to_nat (Concurrency (c_config c))) Idle;
     monitor := Sleeping;
     fetched := [] |}.

(** The seed check of [Crawl]. *)
Definition checkSeed (startURL : string) : URL + string :=
  match url_Parse startURL with
  | None => inr ("invalid URL: " +:+ errorText startURL)%string
  | Some parsed =>
      if negb (String.eqb (Scheme parsed) "http") &&
         negb (String.eqb (Scheme parsed) "https")
      then inr "URL must use http or https scheme"%string
      else inl parsed
  end.

(** The state reached by a crawl under a schedule; [None] when the seed is
    rejected and no goroutine is ever started. *)
Definition crawl (c : Crawler) (startURL : string) (schedule : list event)
    : option State :=
  match checkSeed startURL with
  | inr _ => None
  | inl parsed => Some (run schedule (start c startURL parsed))
  end.

(** [Crawl] starts crawling from the given URL and returns the results. *)
Definition Crawl (c : Crawler) (startURL : string) (schedule : list event)
    : CrawlReturn :=
  match checkSeed startURL with
  | inr err => Fails err
  | inl parsed =>
      let s := run schedule (start c startURL parsed) in
      match monitor s with
      | Done => Succeeds {| StartURL := startURL;
                            TotalVisited := Z.of_nat (size (visited s));
                            BrokenLinks := broken s |}
      | _ => Running
      end
  end.

(** The requests sent during a crawl. *)
Definition requests (c : Crawler) (startURL : string) (schedule : list event)
    : list urlTask :=
  match crawl c startURL schedule with
  | Some s => fetched s
  | None => []
  end.

(** C7. [Crawl] fails exactly when the seed does not parse or its scheme is
    neither http nor https, whatever the goroutines and the network do; a
    rejected seed starts no goroutine and sends no request. *)
Theorem Crawl_fails_iff_bad_seed (c : Crawler) (startURL : string)
    (schedule : list event) :
  ((∃ err, Crawl c startURL schedule = Fails err) ↔
   (url_Parse startURL = None ∨
    ∃ parsed, url_Parse startURL = Some parsed ∧
              Scheme parsed ≠ "http"%string ∧ Scheme parsed ≠ "https"%string)) ∧
  ((∃ err, Crawl c startURL schedule = Fails err) →
   crawl c startURL schedule = None ∧ requests c startURL schedule = []).
Proof.
  unfold Crawl, requests, crawl, checkSeed.
  destruct (url_Parse startURL) as [parsed|] eqn:Hp.
  - destruct (String.eqb_spec (Scheme parsed) "http") as [Eh|Eh];
      destruct (String.eqb_spec (Scheme parsed) "https") as [Es|Es]; cbn.
    + rewrite Eh in Es. discriminate.
    + split.
      * split.
        -- intros [err H]. destruct (monitor _); discriminate.
        -- intros [H|(p & [= <-] & H1 & H2)]; [discriminate|done].
      * intros [err H]. destruct (monitor _); discriminate.
    + split.
      * split.
        -- intros [err H]. destruct (monitor _); discriminate.
        -- intros [H|(p & [= <-] & H1 & H2)]; [discriminate|done].
      * intros [err H]. destruct (monitor _); discriminate.
    + split; [|done]. split; [|by eexists].
      intros _. right. by exists parsed.
  - split; [|done]. split; [by left | by eexists].
Qed.

(** Requests are only sent for tasks within the depth limit. *)
Definition within (D : Z) (ws : workerState) : Prop :=
  match ws with
  | Requesting task => (depth task ≤ D)%Z
  | _ => True
  end.

Record depth_inv (cfg : Config) (s : State) : Prop := {
  di_config : config s = cfg;
  di_fetched : Forall (fun t => (depth t ≤ MaxDepth cfg)%Z) (fetched s);
  di_workers : Forall (within (MaxDepth cfg)) (workers s)
}.

Lemma depth_inv_setWorker cfg s w ws :
  depth_inv cfg s → within (MaxDepth cfg) ws → depth_inv cfg (setWorker s w ws).
Proof.
  intros [H1 H2 H3] Hw. split; cbn; [done..|]. by apply Forall_insert.
Qed.

Lemma depth_inv_step_worker cfg s w s' :
  (0 < MaxDepth cfg)%Z → depth_inv cfg s → step_worker s w = Some s' →
  depth_inv cfg s'.
Proof.
  intros HD Hinv. unfold step_worker.
  destruct (workers s !! w) as [ws|] eqn:Hw; cbn; [|done].
  pose proof Hinv as [Hc Hf Hws].
  destruct ws as [|task|task|task|task links|task link rest|task link rest].
  - destruct (tasks s) as [|task q]; [done|]. intros [= <-].
    apply depth_inv_setWorker; [|done]. by split.
  - destruct (_ <? _)%Z; [|done]. intros [= <-].
    apply depth_inv_setWorker; [|done]. by split.
  - destruct ((0 <? MaxDepth (config s))%Z && (MaxDepth (config s) <? depth task)%Z)
      eqn:Hg.
    + intros [= <-]. apply depth_inv_setWorker; [|done]. by split.
    + destruct (url_Parse (url task)); intros [= <-].
      * apply depth_inv_setWorker; [done|]. cbn. rewrite Hc in Hg.
        apply andb_false_iff in Hg as [Hg|Hg]; lia.
      * apply depth_inv_setWorker; [|done]. by split.
  - done.
  - destruct links as [|link rest].
    + intros [= <-]. apply depth_inv_setWorker; [|done]. by split.
    + destruct (shouldVisit s link); intros [= <-]; by apply depth_inv_setWorker.
  - intros [= <-]. apply depth_inv_setWorker; [|done]. by split.
  - intros [= <-]. apply depth_inv_setWorker; [|done].
    destruct (_ <=? _); [by split | done].
Qed.

Lemma depth_inv_step_do cfg s w o s' :
  depth_inv cfg s → step_do s w o = Some s' → depth_inv cfg s'.
Proof.
  intros Hinv. unfold step_do.
  destruct (workers s !! w) as [ws|] eqn:Hw; cbn; [|done].
  pose proof Hinv as [Hc Hf Hws].
  destruct ws as [|task|task|task|task links|task link rest|task link rest];
    try done.
  assert (Ht : (depth task ≤ MaxDepth cfg)%Z).
  { rewrite Forall_lookup in Hws. apply (Hws w _ Hw). }
  assert (Hf' : Forall (fun t => (depth t ≤ MaxDepth cfg)%Z) (fetched s ++ [task])).
  { apply Forall_app. split; [done|]. by constructor. }
  destruct o as [msg|status contentType links].
  - intros [= <-]. apply depth_inv_setWorker; [|done].
    destruct (negb _); by split.
  - destruct (400 <=? status)%Z.
    + intros [= <-]. apply depth_inv_setWorker; [|done].
      destruct (negb _); by split.
    + destruct (negb (isHTML contentType)); intros [= <-];
        (apply depth_inv_setWorker; [|done]); by split.
Qed.

Lemma depth_inv_step_monitor cfg s s' :
  depth_inv cfg s → step_monitor s = Some s' → depth_inv cfg s'.
Proof.
  intros [Hc Hf Hws]. unfold step_monitor.
  destruct (monitor s); repeat (destruct (_ && _) || destruct (_ <? _)%Z);
    intros [= <-]; by split.
Qed.

Lemma depth_inv_step cfg s e :
  (0 < MaxDepth cfg)%Z → depth_inv cfg s → depth_inv cfg (step s e).
Proof.
  intros HD Hinv. unfold step.
  destruct (monitor s); [| |done].
  - destruct e as [w|w o|].
    + destruct (step_worker s w) eqn:E; [|done]. by eapply depth_inv_step_worker.
    + destruct (step_do s w o) eqn:E; [|done]. by eapply depth_inv_step_do.
    + destruct (step_monitor s) eqn:E; [|done]. by eapply depth_inv_step_monitor.
  - destruct e as [w|w o|].
    + destruct (step_worker s w) eqn:E; [|done]. by eapply depth_inv_step_worker.
    + destruct (step_do s w o) eqn:E; [|done]. by eapply depth_inv_step_do.
    + destruct (step_monitor s) eqn:E; [|done]. by eapply depth_inv_step_monitor.
Qed.

Lemma depth_inv_run cfg schedule : ∀ s,
  (0 < MaxDepth cfg)%Z → depth_inv cfg s → depth_inv cfg (run schedule s).
Proof.
  induction schedule as [|e schedule IH]; intros s HD Hinv; [done|].
  cbn. apply IH; [done|]. by apply depth_inv_step.
Qed.

(** C6 (as the code has it). With a positive [MaxDepth], a worker that holds
    a task deeper than [MaxDepth] drops it, releasing its slot, without a
    request, while a task within the limit goes on to its request; so in
    every run every request is for a task of depth at most [MaxDepth].  A
    [MaxDepth] that is zero or negative applies no limit: the depth check
    lets a task of any depth pass, and its request is sent. *)
Theorem depth_limit_positive (c : Crawler) (startURL : string)
    (schedule : list event) :
  ((0 < MaxDepth (c_config c))%Z →
   (∀ s w task,
      config s = c_config c → workers s !! w = Some (Holding task) →
      (MaxDepth (c_config c) < depth task)%Z →
      step_worker s w = Some (setWorker (release s) w Idle) ∧
      fetched (setWorker (release s) w Idle) = fetched s) ∧
   (∀ s w task,
      config s = c_config c → workers s !! w = Some (Holding task) →
      (depth task ≤ MaxDepth (c_config c))%Z → url_Parse (url task) ≠ None →
      step_worker s w = Some (setWorker s w (Requesting task))) ∧
   (∀ s, crawl c startURL schedule = Some s →
         Forall (fun t => (depth t ≤ MaxDepth (c_config c))%Z) (fetched s))) ∧
  ((MaxDepth (c_config c) ≤ 0)%Z →
   ∀ s w task,
     config s = c_config c → workers s !! w = Some (Holding task) →
     url_Parse (url task) ≠ None →
     step_worker s w = Some (setWorker s w (Requesting task)) ∧
     ∀ o, ∃ s', step_do (setWorker s w (Requesting task)) w o = Some s' ∧
                fetched s' = fetched s ++ [task]).
Proof.
  split.
  - intros HD. split; [|split].
    + intros s w task Hc Hw Hdeep. unfold step_worker. rewrite Hw. cbn.
      rewrite Hc. replace (0 <? MaxDepth (c_config c))%Z with true by lia.
      replace (MaxDepth (c_config c) <? depth task)%Z with true by lia. done.
    + intros s w task Hc Hw Hin Hp. unfold step_worker. rewrite Hw. cbn.
      rewrite Hc. replace (MaxDepth (c_config c) <? depth task)%Z with false by lia.
      rewrite andb_false_r. by destruct (url_Parse (url task)).
    + intros s. unfold crawl. destruct (checkSeed startURL) as [parsed|]; [|done].
      intros [= <-]. apply (di_fetched (c_config c)).
      apply depth_inv_run; [done|]. split; cbn; [done|constructor|].
      apply Forall_replicate. exact I.
  - intros HD s w task Hc Hw Hp. split.
    + unfold step_worker. rewrite Hw. cbn.
      rewrite Hc. replace (0 <? MaxDepth (c_config c))%Z with false by lia.
      cbn. by destruct (url_Parse (url task)).
    + intros o. unfold step_do. cbn [workers setWorker].
      rewrite list_lookup_insert_eq by (by eapply lookup_lt_Some). cbn.
      destruct o as [msg|status contentType links].
      * eexists. split; [reflexivity|]. cbn. by destruct (negb _).
      * destruct (400 <=? status)%Z.
        -- eexists. split; [reflexivity|]. cbn. by destruct (negb _).
        -- destruct (negb (isHTML contentType)); eexists; (split; [reflexivity|]);
             reflexivity.
Qed.

(** *** Invariants of a crawl *)

(** Whether a worker holds a semaphore slot. *)
Definition holds (ws : workerState) : nat :=
  match ws with
  | Idle | Acquiring _ => 0
  | _ => 1
  end.

(** The task a worker is busy with. *)
Definition taskOf (ws : workerState) : option urlTask :=
  match ws with
  | Idle => None
  | Acquiring task | Holding task | Requesting task | Queueing task _
  | Marking task _ _ | Sending task _ _ => Some task
  end.

(** A task of the crawl: its URL is marked visited, is on the seed's host,
    and its depth is not negative. *)
Definition goodTask (v : gmap string bool) (base : URL) (task : urlTask) : Prop :=
  v !! url task = Some true ∧ IsSameDomain (url task) base = true ∧
  (0 ≤ depth task)%Z.

Definition goodWorker (v : gmap string bool) (base : URL) (ws : workerState)
    : Prop :=
  (∀ task, taskOf ws = Some task → goodTask v base task) ∧
  match ws with
  | Marking _ link _ => IsSameDomain link base = true
  | Sending _ link _ => IsSameDomain link base = true ∧ v !! link = Some true
  | _ => True
  end.

Definition goodBroken (b : BrokenLink) : Prop :=
  (StatusCode b = 0 ∨ 400 ≤ StatusCode b)%Z.

Record crawl_inv (s : State) : Prop := {
  ci_sem : semaphore s = sum_list (map holds (workers s));
  ci_cap : (Z.of_nat (semaphore s) ≤ Z.max 0 (Concurrency (config s)))%Z;
  ci_queue : length (tasks s) ≤ tasksCapacity;
  ci_tasks : Forall (goodTask (visited s) (baseURL s)) (tasks s);
  ci_fetched : Forall (goodTask (visited s) (baseURL s)) (fetched s);
  ci_workers : Forall (goodWorker (visited s) (baseURL s)) (workers s);
  ci_broken : Forall goodBroken (broken s)
}.

Lemma holds_insert (l : list workerState) (w : nat) (ws ws' : workerState) :
  l !! w = Some ws →
  sum_list (map holds (<[w := ws']> l)) + holds ws =
  sum_list (map holds l) + holds ws'.
Proof.
  revert w. induction l as [|x l IH]; intros w Hw; [done|].
  destruct w as [|w]; simpl in *.
  - injection Hw as ->. lia.
  - specialize (IH w Hw). lia.
Qed.

Lemma goodTask_mark v base link task :
  goodTask v base task → goodTask (<[link := true]> v) base task.
Proof.
  intros (Hv & Hd & Hz). split_and!; [|done|done].
  destruct (decide (link = url task)) as [->|Hne].
  - apply lookup_insert_eq.
  - by rewrite lookup_insert_ne.
Qed.

Lemma goodWorker_mark v base link ws :
  goodWorker v base ws → goodWorker (<[link := true]> v) base ws.
Proof.
  intros [Ht Hw]. split.
  - intros task Htask. by apply goodTask_mark, Ht.
  - destruct ws; try done. destruct Hw as [Hd Hv]. split; [done|].
    destruct (decide (link = link0)) as [->|Hne].
    + apply lookup_insert_eq.
    + by rewrite lookup_insert_ne.
Qed.

Lemma crawl_inv_step_worker s w s' :
  crawl_inv s → step_worker s w = Some s' → crawl_inv s'.
Proof.
  intros Hinv. unfold step_worker.
  destruct (workers s !! w) as [ws|] eqn:Hw; cbn [mbind option_bind]; [|done].
  pose proof Hinv as [Hsem Hcap Hq Ht Hf Hws Hb].
  pose proof (Forall_lookup_1 _ _ _ _ Hws Hw) as [Hgt Hgw].
  destruct ws as [|task|task|task|task links|task link rest|task link rest].
  - (* receive a task *)
    destruct (tasks s) as [|task q] eqn:Eq; [done|]. intros [= <-].
    apply Forall_cons in Ht as [Htask Ht].
    split; cbn.
    + pose proof (holds_insert _ w _ (Acquiring task) Hw) as H. cbn in H. lia.
    + done.
    + cbn in Hq. lia.
    + done.
    + done.
    + apply Forall_insert; [done|]. split; [|done]. by intros ? [= <-].
    + done.
  - (* take a slot *)
    destruct (Z.of_nat (semaphore s) <? Concurrency (config s))%Z eqn:E; [|done].
    intros [= <-]. apply Z.ltb_lt in E. split; cbn; try done.
    + pose proof (holds_insert _ w _ (Holding task) Hw) as H. cbn in H. lia.
    + lia.
    + apply Forall_insert; [done|]. split; [|done]. intros ? [= <-]. by apply Hgt.
  - (* depth check and request *)
    pose proof (holds_insert _ w _ Idle Hw) as H0.
    pose proof (holds_insert _ w _ (Requesting task) Hw) as H1. cbn in H0, H1.
    destruct ((0 <? MaxDepth (config s))%Z && (MaxDepth (config s) <? depth task)%Z).
    + intros [= <-]. split; cbn; try done; try lia.
      apply Forall_insert; [done|]. by split.
    + destruct (url_Parse (url task)); intros [= <-]; split; cbn; try done; try lia.
      * apply Forall_insert; [done|]. split; [|done]. intros ? [= <-]. by apply Hgt.
      * apply Forall_insert; [done|]. by split.
      * apply Forall_app. split; [done|]. constructor; [|done]. by left.
  - done.
  - (* the loop over the links *)
    destruct links as [|link rest].
    + intros [= <-]. pose proof (holds_insert _ w _ Idle Hw) as H0. cbn in H0.
      split; cbn; try done; try lia. apply Forall_insert; [done|]. by split.
    + pose proof (holds_insert _ w _ (Marking task link rest) Hw) as H0.
      pose proof (holds_insert _ w _ (Queueing task rest) Hw) as H1. cbn in H0, H1.
      destruct (shouldVisit s link) eqn:Es; intros [= <-]; split; cbn;
        try done; try lia.
      * apply Forall_insert; [done|]. split; [intros ? [= <-]; by apply Hgt|].
        unfold shouldVisit in Es.
        by destruct (IsSameDomain link (baseURL s)).
      * apply Forall_insert; [done|]. split; [|done]. intros ? [= <-]. by apply Hgt.
  - (* markVisited *)
    intros [= <-]. pose proof (holds_insert _ w _ (Sending task link rest) Hw) as H0.
    cbn in H0. split; cbn; try done; try lia.
    + eapply Forall_impl; [exact Ht|]. intros t. apply goodTask_mark.
    + eapply Forall_impl; [exact Hf|]. intros t. apply goodTask_mark.
    + apply Forall_insert.
      * eapply Forall_impl; [exact Hws|]. intros t. apply goodWorker_mark.
      * split.
        -- intros ? [= <-]. apply goodTask_mark. by apply Hgt.
        -- split; [done|]. apply lookup_insert_eq.
  - (* the send with default *)
    intros [= <-]. pose proof (holds_insert _ w _ (Queueing task rest) Hw) as H0.
    cbn in H0. destruct Hgw as [Hd Hv].
    assert (Hgood : goodWorker (visited s) (baseURL s) (Queueing task rest)).
    { split; [|done]. intros ? [= <-]. by apply Hgt. }
    destruct (length (tasks s) <? tasksCapacity) eqn:El.
    + apply Nat.ltb_lt in El. split; cbn; try done; try lia.
      * rewrite List.length_app. cbn. unfold tasksCapacity in *. lia.
      * apply Forall_app. split; [done|]. constructor; [|done].
        split_and!; cbn; [done|done|]. destruct (Hgt task eq_refl) as (_ & _ & Hz). lia.
      * by apply Forall_insert.
    + split; cbn; try done; try lia. by apply Forall_insert.
Qed.

Lemma crawl_inv_step_do s w o s' :
  crawl_inv s → step_do s w o = Some s' → crawl_inv s'.
Proof.
  intros Hinv. unfold step_do.
  destruct (workers s !! w) as [ws|] eqn:Hw; cbn [mbind option_bind]; [|done].
  pose proof Hinv as [Hsem Hcap Hq Ht Hf Hws Hb].
  pose proof (Forall_lookup_1 _ _ _ _ Hws Hw) as [Hgt Hgw].
  destruct ws as [|task|task|task|task links|task link rest|task link rest];
    try done.
  pose proof (holds_insert _ w _ Idle Hw) as H0.
  pose proof (holds_insert _ w _ (Queueing task []) Hw) as H1. cbn in H0, H1.
  assert (Hf' : Forall (goodTask (visited s) (baseURL s)) (fetched s ++ [task])).
  { apply Forall_app. split; [done|]. constructor; [|done]. by apply Hgt. }
  assert (Hidle : Forall (goodWorker (visited s) (baseURL s)) (<[w := Idle]> (workers s))).
  { apply Forall_insert; [done|]. by split. }
  destruct o as [msg|status contentType links].
  - intros [= <-]. destruct (negb (String.eqb (sourceURL task) ""));
      split; cbn; try done; try lia.
    apply Forall_app. split; [done|]. constructor; [|done]. by left.
  - destruct (400 <=? status)%Z eqn:E.
    + apply Z.leb_le in E. intros [= <-].
      destruct (negb (String.eqb (sourceURL task) "")); split; cbn;
        try done; try lia;
        (apply Forall_app; split; [done|]; constructor; [|done]; by right).
    + destruct (negb (isHTML contentType)); intros [= <-]; split; cbn;
        try done; try lia.
      pose proof (holds_insert _ w _ (Queueing task links) Hw) as H2. cbn in H2.
      all: try lia.
      apply Forall_insert; [done|]. split; [|done]. intros ? [= <-]. by apply Hgt.
Qed.

Lemma crawl_inv_step_monitor s s' :
  crawl_inv s → step_monitor s = Some s' → crawl_inv s'.
Proof.
  intros [Hsem Hcap Hq Ht Hf Hws Hb]. unfold step_monitor.
  destruct (monitor s); repeat (destruct (_ && _) || destruct (_ <? _)%Z);
    intros [= <-]; by split.
Qed.

Lemma crawl_inv_step s e : crawl_inv s → crawl_inv (step s e).
Proof.
  intros Hinv. unfold step.
  destruct (monitor s); [| |done]; destruct e as [w|w o|]; cbn.
  all: first
    [ destruct (step_worker s w) eqn:E; [by eapply crawl_inv_step_worker|done]
    | destruct (step_do s w o) eqn:E; [by eapply crawl_inv_step_do|done]
    | destruct (step_monitor s) eqn:E; [by eapply crawl_inv_step_monitor|done] ].
Qed.

Lemma crawl_inv_run schedule : ∀ s, crawl_inv s → crawl_inv (run schedule s).
Proof.
  induction schedule as [|e schedule IH]; intros s Hinv; [done|].
  cbn. apply IH. by apply crawl_inv_step.
Qed.

Lemma sum_holds_idle n : sum_list (map holds (replicate n Idle)) = 0.
Proof. induction n as [|n IH]; cbn; [done|]. by rewrite IH. Qed.

Lemma crawl_inv_start config c startURL parsed :
  New config = Some c → url_Parse startURL = Some parsed →
  crawl_inv (start c startURL parsed).
Proof.
  unfold New. destruct (Concurrency config <? 0)%Z eqn:E; [done|].
  intros [= <-] Hp. split; cbn.
  - by rewrite sum_holds_idle.
  - lia.
  - unfold tasksCapacity. lia.
  - constructor; [|done]. split_and!; cbn; [apply lookup_insert_eq| |done].
    unfold IsSameDomain. rewrite Hp. apply String.eqb_refl.
  - done.
  - apply Forall_replicate. by split.
  - done.
Qed.

Lemma crawl_inv_crawl config c startURL schedule s :
  New config = Some c → crawl c startURL schedule = Some s → crawl_inv s.
Proof.
  intros Hnew. unfold crawl, checkSeed.
  destruct (url_Parse startURL) as [parsed|] eqn:Hp; [|done].
  destruct (_ && _); [done|]. intros [= <-].
  apply crawl_inv_run. by eapply crawl_inv_start.
Qed.

(** What no step changes: the configuration, the base URL and the number
    of workers. *)
Definition frame (s s' : State) : Prop :=
  config s' = config s ∧ baseURL s' = baseURL s ∧
  length (workers s') = length (workers s).

Lemma frame_setWorker s s' w ws : frame s s' → frame s (setWorker s' w ws).
Proof. intros (H1 & H2 & H3). split_and!; cbn; [done|done|by rewrite length_insert]. Qed.

Lemma frame_step_worker s w s' : step_worker s w = Some s' → frame s s'.
Proof.
  unfold step_worker. destruct (workers s !! w) as [ws|]; cbn; [|done].
  destruct ws as [|task|task|task|task [|link rest]|task link rest|task link rest];
    cbn; try done.
  all: repeat match goal with
              | |- context [if ?b then _ else _] => destruct b
              | |- context [match ?x with _ => _ end] => destruct x
              end; try done.
  all: intros [= <-]; by apply frame_setWorker.
Qed.

Lemma frame_step_do s w o s' : step_do s w o = Some s' → frame s s'.
Proof.
  unfold step_do. destruct (workers s !! w) as [ws|]; cbn; [|done].
  destruct ws; try done. destruct o as [msg|status contentType links].
  all: repeat match goal with
              | |- context [if ?b then _ else _] => destruct b
              end; try done.
  all: intros [= <-]; by apply frame_setWorker.
Qed.

Lemma frame_step_monitor s s' : step_monitor s = Some s' → frame s s'.
Proof.
  unfold step_monitor.
  destruct (monitor s); repeat (destruct (_ && _) || destruct (_ <? _)%Z);
    intros [= <-]; done.
Qed.

Lemma frame_step s e : frame s (step s e).
Proof.
  unfold step. destruct (monitor s); [| |done]; destruct e as [w|w o|]; cbn.
  all: first
    [ destruct (step_worker s w) eqn:E; [by eapply frame_step_worker|done]
    | destruct (step_do s w o) eqn:E; [by eapply frame_step_do|done]
    | destruct (step_monitor s) eqn:E; [by eapply frame_step_monitor|done] ].
Qed.

Lemma frame_run schedule : ∀ s, frame s (run schedule s).
Proof.
  induction schedule as [|e schedule IH]; intros s; [done|]. cbn.
  destruct (frame_step s e) as (H1 & H2 & H3).
  destruct (IH (step s e)) as (H4 & H5 & H6).
  change (foldl step (step s e) schedule) with (run schedule (step s e)).
  unfold frame. split_and!; congruence.
Qed.

(** The number of requests in flight. *)
Definition inFlight (l : list workerState) : nat :=
  length (List.filter (fun ws => match ws with Requesting _ => true | _ => false end) l).

Lemma inFlight_holds l : inFlight l ≤ sum_list (map holds l).
Proof.
  unfold inFlight. induction l as [|ws l IH]; cbn; [done|].
  destruct ws; cbn; lia.
Qed.

(** The concurrency bound: in every state of every crawl, the slots in use
    are exactly the workers between taking a slot and returning from
    [processURL] (no slot leaks, none is released twice), they are at most
    [Concurrency], so at most [Concurrency] requests are in flight; there are
    [Concurrency] workers, and the channel holds at most 1000 tasks. *)
Theorem concurrency_bound (config : Config) (c : Crawler) (startURL : string)
    (schedule : list event) (s : State) :
  New config = Some c → crawl c startURL schedule = Some s →
  semaphore s = sum_list (map holds (workers s)) ∧
  (Z.of_nat (semaphore s) ≤ Concurrency config)%Z ∧
  (Z.of_nat (inFlight (workers s)) ≤ Concurrency config)%Z ∧
  Z.of_nat (length (workers s)) = Concurrency config ∧
  length (tasks s) ≤ tasksCapacity.
Proof.
  intros Hnew Hc. pose proof (crawl_inv_crawl _ _ _ _ _ Hnew Hc) as Hinv.
  revert Hnew Hc. unfold New, crawl.
  destruct (Concurrency config <? 0)%Z eqn:E; [done|]. intros [= <-].
  destruct (checkSeed startURL) as [parsed|]; [|done]. intros [= <-].
  destruct (frame_run schedule
              (start {| c_config := config; c_visited := ∅; c_broken := [] |}
                     startURL parsed)) as (Hcfg & _ & Hlen).
  cbn in Hcfg, Hlen. rewrite length_replicate in Hlen.
  pose proof (ci_sem _ Hinv) as Hsem. pose proof (ci_cap _ Hinv) as Hcap.
  rewrite Hcfg in Hcap.
  pose proof (inFlight_holds (workers (run schedule
     (start {| c_config := config; c_visited := ∅; c_broken := [] |}
            startURL parsed)))) as Hfl.
  split_and!; [done|lia|lia|lia|apply (ci_queue _ Hinv)].
Qed.

(** The same-domain policy: every task that is queued or requested is for a
    URL on the seed's host, marked visited, at a non-negative depth. *)
Theorem tasks_same_domain (config : Config) (c : Crawler) (startURL : string)
    (schedule : list event) (s : State) :
  New config = Some c → crawl c startURL schedule = Some s →
  url_Parse startURL = Some (baseURL s) ∧
  Forall (fun task => IsSameDomain (url task) (baseURL s) = true ∧
                      visited s !! url task = Some true ∧
                      (0 ≤ depth task)%Z)
         (fetched s ++ tasks s).
Proof.
  intros Hnew Hc. pose proof (crawl_inv_crawl _ _ _ _ _ Hnew Hc) as Hinv. split.
  - revert Hc. unfold crawl, checkSeed.
    destruct (url_Parse startURL) as [parsed|]; [|done].
    destruct (_ && _); [done|]. intros [= <-].
    destruct (frame_run schedule (start c startURL parsed)) as (_ & -> & _). done.
  - apply Forall_app. split.
    + eapply Forall_impl; [apply (ci_fetched _ Hinv)|]. intros t (H1 & H2 & H3). done.
    + eapply Forall_impl; [apply (ci_tasks _ Hinv)|]. intros t (H1 & H2 & H3). done.
Qed.

(** Only failures are reported: every broken link carries status 0 (the
    request failed or could not be built) or a status of at least 400. *)
Theorem broken_links_are_failures (config : Config) (c : Crawler)
    (startURL : string) (schedule : list event) (s : State) :
  New config = Some c → crawl c startURL schedule = Some s →
  Forall (fun b => (StatusCode b = 0 ∨ 400 ≤ StatusCode b)%Z) (broken s).
Proof.
  intros Hnew Hc. apply (ci_broken s). by eapply crawl_inv_crawl.
Qed.

(** The monitor only looks at the channel and at the semaphore.  A worker
    that has received the seed task but not yet taken its slot is invisible
    to it: if the monitor wakes up twice in that window, [Crawl] returns
    successfully without a single request. *)
Theorem early_return_without_request (config : Config) (c : Crawler)
    (startURL : string) (parsed : URL) :
  New config = Some c → (1 ≤ Concurrency config)%Z →
  checkSeed startURL = inl parsed →
  Crawl c startURL [Step 0; Poll; Poll] =
    Succeeds {| StartURL := startURL; TotalVisited := 1; BrokenLinks := [] |} ∧
  requests c startURL [Step 0; Poll; Poll] = [].
Proof.
  unfold New. destruct (Concurrency config <? 0)%Z; [done|].
  intros [= <-] Hc Hseed. unfold Crawl, requests, crawl. rewrite Hseed.
  unfold start. cbn [c_config c_visited c_broken].
  destruct (Z.to_nat (Concurrency config)) as [|n] eqn:En; [lia|].
  cbn. split; [|done]. do 2 f_equal.
  rewrite insert_empty, map_size_singleton. done.
Qed.

(** *** A single worker *)

(** The URL a worker has received but not yet requested. *)
Definition pendingOf (ws : workerState) : list string :=
  match ws with
  | Acquiring task | Holding task | Requesting task => [url task]
  | _ => []
  end.

(** All the URLs that were requested or are about to be. *)
Definition known (s : State) (ws : workerState) : list string :=
  map url (fetched s) ++ pendingOf ws ++ map url (tasks s).

Record seq_inv (s : State) : Prop := {
  si_worker : ∃ ws, workers s = [ws] ∧ NoDup (known s ws) ∧
              match ws with
              | Marking _ link _ | Sending _ link _ => link ∉ known s ws
              | _ => True
              end;
  si_inv : crawl_inv s
}.

Lemma NoDup_drop_middle {A} (l k : list A) (x : A) :
  NoDup (l ++ x :: k) → NoDup (l ++ k).
Proof.
  rewrite !NoDup_app, NoDup_cons. intros (H1 & H2 & _ & H3).
  split_and!; [done| |done]. intros y Hy Hk. apply (H2 y Hy). by constructor.
Qed.

Lemma known_visited s ws u :
  crawl_inv s → pendingOf ws = [] → u ∈ known s ws → visited s !! u = Some true.
Proof.
  intros Hinv Hp. unfold known. rewrite Hp. cbn.
  rewrite elem_of_app, !list_elem_of_fmap.
  intros [(t & -> & Ht)|(t & -> & Ht)].
  - pose proof (ci_fetched _ Hinv) as Hf. rewrite Forall_forall in Hf.
    by destruct (Hf t Ht).
  - pose proof (ci_tasks _ Hinv) as Hf. rewrite Forall_forall in Hf.
    by destruct (Hf t Ht).
Qed.

Lemma seq_inv_step_worker s w s' :
  seq_inv s → step_worker s w = Some s' → seq_inv s'.
Proof.
  intros [(ws0 & Hws & Hnd & Hlink) Hinv] Hstep.
  split; [|by eapply crawl_inv_step_worker].
  revert Hstep. unfold step_worker. rewrite Hws.
  destruct w as [|w]; cbn [lookup list_lookup mbind option_bind]; [|done].
  unfold known in *.
  destruct ws0 as [|task|task|task|task links|task link rest|task link rest].
  - destruct (tasks s) as [|task q] eqn:Eq; [done|]. intros [= <-].
    eexists. cbn. rewrite Hws. cbn. split; [done|]. split; [|done].
    cbn in Hnd. done.
  - destruct (_ <? _)%Z; [|done]. intros [= <-].
    eexists. cbn. rewrite Hws. cbn. done.
  - destruct (_ && _).
    + intros [= <-]. eexists. cbn. rewrite Hws. cbn. split; [done|]. split; [|done].
      cbn in Hnd. by apply NoDup_drop_middle in Hnd.
    + destruct (url_Parse (url task)); intros [= <-]; eexists; cbn; rewrite Hws;
        cbn; (split; [done|]); (split; [|done]).
      * done.
      * cbn in Hnd. by apply NoDup_drop_middle in Hnd.
  - done.
  - destruct links as [|link rest].
    + intros [= <-]. eexists. cbn. rewrite Hws. cbn. done.
    + destruct (shouldVisit s link) eqn:Es; intros [= <-]; eexists; cbn;
        rewrite Hws; cbn; (split; [done|]); (split; [done|]); [|done].
      intros Hin. apply (known_visited s (Queueing task (link :: rest))) in Hin;
        [|done|done].
      unfold shouldVisit in Es. destruct (IsSameDomain link (baseURL s)); [|done].
      cbn in Es. by rewrite Hin in Es.
  - intros [= <-]. eexists. cbn. rewrite Hws. cbn. done.
  - intros [= <-]. destruct (length (tasks s) <? tasksCapacity).
    + eexists. cbn. rewrite Hws. cbn. split; [done|]. split; [|done].
      cbn in Hnd, Hlink. rewrite map_app. cbn. rewrite app_assoc.
      apply NoDup_app. split_and!; [done| |apply NoDup_singleton].
      intros u Hu. rewrite list_elem_of_singleton. intros ->. done.
    + eexists. cbn. rewrite Hws. cbn. done.
Qed.

Lemma seq_inv_step_do s w o s' :
  seq_inv s → step_do s w o = Some s' → seq_inv s'.
Proof.
  intros [(ws0 & Hws & Hnd & Hlink) Hinv] Hstep.
  split; [|by eapply crawl_inv_step_do].
  revert Hstep. unfold step_do. rewrite Hws.
  destruct w as [|w]; cbn [lookup list_lookup mbind option_bind]; [|done].
  unfold known in *.
  destruct ws0 as [|task|task|task|task links|task link rest|task link rest];
    try done.
  cbn in Hnd.
  assert (Hnd' : NoDup (map url (fetched s ++ [task]) ++ map url (tasks s))).
  { rewrite map_app. cbn. by rewrite <- app_assoc. }
  destruct o as [msg|status contentType links].
  - intros [= <-]. destruct (negb _); eexists; cbn; rewrite Hws; cbn; done.
  - destruct (400 <=? status)%Z.
    + intros [= <-]. destruct (negb _); eexists; cbn; rewrite Hws; cbn; done.
    + destruct (negb (isHTML contentType)); intros [= <-]; eexists; cbn;
        rewrite Hws; cbn; done.
Qed.

Lemma seq_inv_step_monitor s s' :
  seq_inv s → step_monitor s = Some s' → seq_inv s'.
Proof.
  intros [(ws0 & Hws & Hnd & Hlink) Hinv] Hstep.
  split; [|by eapply crawl_inv_step_monitor].
  revert Hstep. unfold step_monitor.
  destruct (monitor s); repeat (destruct (_ && _) || destruct (_ <? _)%Z);
    intros [= <-]; by exists ws0.
Qed.

Lemma seq_inv_step s e : seq_inv s → seq_inv (step s e).
Proof.
  intros Hinv. unfold step.
  destruct (monitor s); [| |done]; destruct e as [w|w o|]; cbn.
  all: first
    [ destruct (step_worker s w) eqn:E; [by eapply seq_inv_step_worker|done]
    | destruct (step_do s w o) eqn:E; [by eapply seq_inv_step_do|done]
    | destruct (step_monitor s) eqn:E; [by eapply seq_inv_step_monitor|done] ].
Qed.

Lemma seq_inv_run schedule : ∀ s, seq_inv s → seq_inv (run schedule s).
Proof.
  induction schedule as [|e schedule IH]; intros s Hinv; [done|].
  cbn. apply IH. by apply seq_inv_step.
Qed.

(** With a single worker the crawl is sequential and the dedup is sound: no
    URL is requested twice, and no URL that was requested is queued again. *)
Theorem single_worker_fetches_once (config : Config) (c : Crawler)
    (startURL : string) (schedule : list event) (s : State) :
  New config = Some c → Concurrency config = 1%Z →
  crawl c startURL schedule = Some s →
  NoDup (map url (fetched s) ++ map url (tasks s)).
Proof.
  intros Hnew Hone Hc.
  assert (Hinv : seq_inv s).
  { revert Hc. unfold crawl, checkSeed.
    destruct (url_Parse startURL) as [parsed|] eqn:Hp; [|done].
    destruct (_ && _); [done|]. intros [= <-]. apply seq_inv_run. split.
    - exists Idle. split_and!; [|apply NoDup_singleton|done].
      revert Hnew. unfold New. destruct (_ <? _)%Z; [done|]. intros [= <-].
      cbn. by rewrite Hone.
    - by eapply crawl_inv_start. }
  destruct Hinv as [(ws & Hws & Hnd & _) _]. unfold known in Hnd.
  destruct ws; cbn in Hnd; try done; by apply NoDup_drop_middle in Hnd.
Qed.

(** *** The visited map only grows *)

Definition grows (s s' : State) : Prop :=
  (∀ u, visited s !! u = Some true → visited s' !! u = Some true) ∧
  size (visited s) ≤ size (visited s').

Lemma grows_same s s' : visited s' = visited s → grows s s'.
Proof. intros H. unfold grows. rewrite H. done. Qed.

Lemma grows_mark s u : grows s (markVisited s u).
Proof.
  split; cbn.
  - intros v Hv. destruct (decide (u = v)) as [->|Hne].
    + apply lookup_insert_eq.
    + by rewrite lookup_insert_ne.
  - rewrite map_size_insert. destruct (visited s !! u); cbn; lia.
Qed.

Lemma grows_trans s1 s2 s3 : grows s1 s2 → grows s2 s3 → grows s1 s3.
Proof. intros [H1 H2] [H3 H4]. split; [by intros u Hu; apply H3, H1 | lia]. Qed.

Lemma grows_step_worker s w s' : step_worker s w = Some s' → grows s s'.
Proof.
  unfold step_worker. destruct (workers s !! w) as [ws|]; cbn; [|done].
  destruct ws as [|task|task|task|task [|link rest]|task link rest|task link rest];
    cbn; try done.
  all: repeat match goal with
              | |- context [if ?b then _ else _] => destruct b
              | |- context [match ?x with _ => _ end] => destruct x
              end; try done.
  all: intros [= <-]; first [by apply grows_same | apply grows_mark].
Qed.

Lemma grows_step_do s w o s' : step_do s w o = Some s' → grows s s'.
Proof.
  unfold step_do. destruct (workers s !! w) as [ws|]; cbn; [|done].
  destruct ws; try done. destruct o as [msg|status contentType links].
  all: repeat match goal with
              | |- context [if ?b then _ else _] => destruct b
              end; try done.
  all: intros [= <-]; by apply grows_same.
Qed.

Lemma grows_step_monitor s s' : step_monitor s = Some s' → grows s s'.
Proof.
  unfold step_monitor.
  destruct (monitor s); repeat (destruct (_ && _) || destruct (_ <? _)%Z);
    intros [= <-]; by apply grows_same.
Qed.

Lemma grows_step s e : grows s (step s e).
Proof.
  unfold step. destruct (monitor s); [| |by apply grows_same];
    destruct e as [w|w o|]; cbn.
  all: first
    [ destruct (step_worker s w) eqn:E;
        [by eapply grows_step_worker | by apply grows_same]
    | destruct (step_do s w o) eqn:E;
        [by eapply grows_step_do | by apply grows_same]
    | destruct (step_monitor s) eqn:E;
        [by eapply grows_step_monitor | by apply grows_same] ].
Qed.

Lemma grows_run schedule : ∀ s, grows s (run schedule s).
Proof.
  induction schedule as [|e schedule IH]; intros s; [by apply grows_same|].
  cbn. eapply grows_trans; [apply grows_step | apply IH].
Qed.

(** *** Marking and sending a discovered link *)

(** C3 (as the code has it). A worker that has found a link in-domain and
    not yet visited marks it visited and then tries to send its task.  The
    task, for the link, with the page as source and the depth of the page
    plus one, is appended to the channel when the channel holds fewer than
    1000 tasks at that moment; when the channel is full the link is skipped:
    the channel stays as it is while the link stays marked visited.  From
    the mark on, [shouldVisit] refuses the link in every later state, so a
    skipped link is never sent later. *)
Theorem enqueue_unless_full (s : State) (w : nat) (task : urlTask)
    (link : string) (rest : list string) :
  (workers s !! w = Some (Marking task link rest) →
   step_worker s w = Some (setWorker (markVisited s link) w (Sending task link rest))) ∧
  (workers s !! w = Some (Sending task link rest) →
   ∃ s', step_worker s w = Some s' ∧
         workers s' !! w = Some (Queueing task rest) ∧
         visited s' = visited s ∧ fetched s' = fetched s ∧
         (length (tasks s) < tasksCapacity →
          tasks s' = tasks s ++ [mkTask link (url task) (depth task + 1)]) ∧
         (tasksCapacity ≤ length (tasks s) → tasks s' = tasks s)) ∧
  (monitor s ≠ Done →
   workers s !! w = Some (Queueing task (link :: rest)) →
   shouldVisit s link = true →
   let s' := run [Step w; Step w; Step w] s in
   visited s' = <[link := true]> (visited s) ∧
   tasks s' = (if length (tasks s) <? tasksCapacity
               then tasks s ++ [mkTask link (url task) (depth task + 1)]
               else tasks s) ∧
   workers s' !! w = Some (Queueing task rest) ∧
   fetched s' = fetched s ∧
   shouldVisit s' link = false) ∧
  (visited s !! link = Some true →
   ∀ schedule, shouldVisit (run schedule s) link = false).
Proof.
  split_and!.
  - intros Hw. unfold step_worker. by rewrite Hw.
  - intros Hw. pose proof (lookup_lt_Some _ _ _ Hw) as Hlt.
    unfold step_worker. rewrite Hw. cbn -[Nat.ltb tasksCapacity].
    eexists. split; [reflexivity|].
    destruct (length (tasks s) <? tasksCapacity) eqn:E; cbn -[tasksCapacity].
    + apply Nat.ltb_lt in E.
      split_and!; [by apply list_lookup_insert_eq | done | done | done | lia].
    + apply Nat.ltb_ge in E.
      split_and!; [by apply list_lookup_insert_eq | done | done | lia | done].
  - intros Hm Hw Hv. pose proof (lookup_lt_Some _ _ _ Hw) as Hlt.
    assert (E1 : step s (Step w) = setWorker s w (Marking task link rest)).
    { unfold step, step_worker. rewrite Hw. cbn. rewrite Hv.
      by destruct (monitor s). }
    set (s1 := setWorker s w (Marking task link rest)) in *.
    assert (E2 : step s1 (Step w) =
                 setWorker (markVisited s1 link) w (Sending task link rest)).
    { unfold step, step_worker. cbn [s1 setWorker workers monitor].
      rewrite list_lookup_insert_eq by done. cbn. by destruct (monitor s). }
    set (s2 := setWorker (markVisited s1 link) w (Sending task link rest)) in *.
    assert (E3 : step s2 (Step w) =
                 setWorker (if length (tasks s) <? tasksCapacity
                            then setTasks s2 (tasks s ++
                                   [mkTask link (url task) (depth task + 1)])
                            else s2) w (Queueing task rest)).
    { unfold step, step_worker. cbn [s2 s1 setWorker markVisited workers monitor].
      rewrite list_lookup_insert_eq by (by rewrite length_insert).
      cbn -[Nat.ltb tasksCapacity]. by destruct (monitor s). }
    cbn zeta. unfold run. cbn [foldl]. rewrite E1, E2, E3.
    assert (Hmark : ∀ m : gmap string bool,
              default false (<[link := true]> m !! link) = true).
    { intros m. by rewrite lookup_insert_eq. }
    unfold shouldVisit.
    destruct (length (tasks s) <? tasksCapacity); cbn -[tasksCapacity].
    + rewrite Hmark. split_and!; try done.
      * by rewrite list_lookup_insert_eq by (by rewrite !length_insert).
      * by destruct (negb _).
    + rewrite Hmark. split_and!; try done.
      * by rewrite list_lookup_insert_eq by (by rewrite !length_insert).
      * by destruct (negb _).
  - intros Hv schedule. destruct (grows_run schedule s) as [Hk _].
    destruct (frame_run schedule s) as (_ & Hb & _).
    unfold shouldVisit. rewrite (Hk link Hv). cbn. by destruct (negb _).
Qed.

(** *** How a crawl ends *)




(** The monitor's test [len(tasks) == 0 && len(c.semaphore) == 0]. *)
Definition idle (s : State) : bool :=
  (length (tasks s) =? 0) && (semaphore s =? 0).





Lemma run_Done schedule : ∀ s, monitor s = Done → run schedule s = s.
Proof.
  induction schedule as [|e schedule IH]; intros s Hd; [done|].
  cbn. unfold step at 2. rewrite Hd. by apply IH.
Qed.












End WithParser.

(** *** Concrete crawls

    The site of the examples is [https://site.com]; URLs are parsed by the
    reference instance of [url.Parse]. *)

Definition errText (u : string) : string := "parse error"%string.

Definition crawlerOf (concurrency maxDepth : Z) : Crawler :=
  {| c_config := mkConfig concurrency (10 * 1000000000) maxDepth false;
     c_visited := ∅; c_broken := [] |}.

Definition seed : string := "https://site.com/".
Definition pageA : string := "https://site.com/a".
Definition pageB : string := "https://site.com/b".
Definition pageC : string := "https://site.com/c".

Definition html (links : list string) : FetchOutcome :=
  Response 200 "text/html; charset=utf-8" links.

(** Worker [w] receives a task, takes a slot, passes the depth check, and
    its request is answered by [o]. *)
Definition fetchBy (w : nat) (o : FetchOutcome) : list event :=
  [Step w; Step w; Step w; Do w o].

(** Worker [w] handles one link of a page: check, mark, send. *)
Definition enqueueBy (w : nat) : list event := [Step w; Step w; Step w].

(** A chain seed -> a -> b crawled by one worker with [MaxDepth = 1]: the
    task for b has depth 2 and is dropped. *)
Definition chain_schedule : list event :=
  fetchBy 0 (html [pageA]) ++ enqueueBy 0 ++ [Step 0] ++
  fetchBy 0 (html [pageB]) ++ enqueueBy 0 ++ [Step 0] ++
  [Step 0; Step 0; Step 0].

(** A worker that holds a task of depth 7 for page c. *)
Definition holding_deep (maxDepth : Z) : State :=
  setWorker (start (crawlerOf 1 maxDepth) seed (mkURL "https" "site.com" "/")) 0
            (Holding (mkTask pageC pageB 7)).

Lemma depth_limit_positive_witness :
  Forall (fun t => (depth t ≤ 1)%Z)
         (fetched (run simple_url_Parse errText chain_schedule
                       (start (crawlerOf 1 1) seed (mkURL "https" "site.com" "/")))) ∧
  step_worker simple_url_Parse errText (holding_deep 1) 0
    = Some (setWorker (release (holding_deep 1)) 0 Idle) ∧
  step_worker simple_url_Parse errText (holding_deep 0) 0
    = Some (setWorker (holding_deep 0) 0 (Requesting (mkTask pageC pageB 7))) ∧
  step_worker simple_url_Parse errText (holding_deep (-1)) 0
    = Some (setWorker (holding_deep (-1)) 0 (Requesting (mkTask pageC pageB 7))).
Proof.
  split; [|split; [|split]].
  - apply (proj2 (proj2 (proj1 (depth_limit_positive simple_url_Parse errText
                                  (crawlerOf 1 1) seed chain_schedule)
                           ltac:(cbn; lia)))).
    vm_compute. reflexivity.
  - refine (proj1 (proj1 (proj1 (depth_limit_positive simple_url_Parse errText
                                   (crawlerOf 1 1) seed chain_schedule)
                            ltac:(cbn; lia))
                     (holding_deep 1) 0 (mkTask pageC pageB 7) _ _ _)).
    + reflexivity.
    + reflexivity.
    + cbn. lia.
  - refine (proj1 (proj2 (depth_limit_positive simple_url_Parse errText
                            (crawlerOf 1 0) seed chain_schedule) ltac:(cbn; lia)
                     (holding_deep 0) 0 (mkTask pageC pageB 7) _ _ _)).
    + reflexivity.
    + reflexivity.
    + vm_compute. discriminate.
  - refine (proj1 (proj2 (depth_limit_positive simple_url_Parse errText
                            (crawlerOf 1 (-1)) seed chain_schedule) ltac:(cbn; lia)
                     (holding_deep (-1)) 0 (mkTask pageC pageB 7) _ _ _)).
    + reflexivity.
    + reflexivity.
    + vm_compute. discriminate.
Defined.

(** C6, as stated, fails for a negative [MaxDepth]: the value is non-zero,
    the seed task has depth 0, which exceeds it, and the seed is fetched. *)
Lemma negative_MaxDepth_is_unlimited :
  MaxDepth (c_config (crawlerOf 1 (-1))) ≠ 0%Z ∧
  requests simple_url_Parse errText (crawlerOf 1 (-1)) seed (fetchBy 0 (html []))
    = [mkTask seed "" 0] ∧
  (MaxDepth (c_config (crawlerOf 1 (-1))) < depth (mkTask seed "" 0))%Z.
Proof. split_and!; [done | vm_compute; reflexivity | cbn; lia]. Qed.

Lemma Crawl_fails_iff_bad_seed_witness :
  crawl simple_url_Parse errText (crawlerOf 1 0) "ftp://site.com/" [Step 0] = None ∧
  requests simple_url_Parse errText (crawlerOf 1 0) "ftp://site.com/" [Step 0] = [].
Proof.
  apply (proj2 (Crawl_fails_iff_bad_seed simple_url_Parse errText (crawlerOf 1 0)
                  "ftp://site.com/" [Step 0])).
  eexists. vm_compute. reflexivity.
Defined.

(** Two workers: the seed links to a and b, which both link to c.  Worker 0
    fetches a while worker 1 fetches b; both ask [shouldVisit] about c before
    either of them marks it. *)
Definition race_schedule : list event :=
  fetchBy 0 (html [pageA; pageB]) ++ enqueueBy 0 ++ enqueueBy 0 ++ [Step 0] ++
  [Step 0; Step 1; Step 0; Step 1; Step 0; Step 1;
   Do 0 (html [pageC]); Do 1 (html [pageC])] ++
  [Step 0; Step 1] ++        (* both: shouldVisit(c) = true *)
  [Step 0; Step 1] ++        (* both: markVisited(c) *)
  [Step 0; Step 1] ++        (* both: send the task for c *)
  [Step 0; Step 1] ++        (* both: end of the loop, slot released *)
  fetchBy 0 (html []) ++ fetchBy 1 (html []).

(** C2 fails on the code: the check and the mark are two critical sections,
    and in this run the in-domain URL c is requested twice. *)
Theorem race_fetches_twice :
  map url (requests simple_url_Parse errText (crawlerOf 2 0) seed race_schedule)
    = [seed; pageA; pageB; pageC; pageC].
Proof. vm_compute. reflexivity. Qed.

(** The pages [https://site.com/p0], [https://site.com/p1], ... *)
Definition page (i : nat) : string :=
  ("https://site.com/p" +:+ NilZero.string_of_uint (Nat.to_uint i))%string.

Definition pages (n : nat) : list string := map page (seq 0 n).

(** One worker fetches a seed page that links to [n] pages and handles all
    the links. *)
Definition fanout_schedule (n : nat) : list event :=
  fetchBy 0 (html (pages n)) ++ replicate (3 * n + 1) (Step 0).

(** C3, as stated, fails: a page with 1001 new in-domain links is handled by
    the only worker; the channel holds 1000 tasks, the last link is marked
    visited but its task is not in the channel, no request was sent for it,
    and [shouldVisit] now refuses it. *)
Lemma full_queue_drops_link :
  let s := run simple_url_Parse errText (fanout_schedule 1001)
               (start (crawlerOf 1 0) seed (mkURL "https" "site.com" "/")) in
  length (tasks s) = 1000 ∧
  IsSameDomain simple_url_Parse (page 1000) (baseURL s) = true ∧
  visited s !! page 1000 = Some true ∧
  existsb (String.eqb (page 1000)) (map url (tasks s)) = false ∧
  map url (fetched s) = [seed] ∧
  workers s = [Idle] ∧
  shouldVisit simple_url_Parse s (page 1000) = false.
Proof. vm_compute. repeat split. Qed.


(** The seed page has been fetched and links to page a: the worker is about
    to handle that link. *)
Definition link_found : State :=
  run simple_url_Parse errText (fetchBy 0 (html [pageA]))
      (start (crawlerOf 1 0) seed (mkURL "https" "site.com" "/")).

(** The worker is about to send the task for page c while the channel holds
    1000 tasks. *)
Definition channel_full : State :=
  setWorker
    (setTasks (start (crawlerOf 1 0) seed (mkURL "https" "site.com" "/"))
              (replicate 1000 (mkTask pageB seed 1)))
    0 (Sending (mkTask pageA seed 1) pageC []).

Lemma enqueue_unless_full_witness :
  (let s' := run simple_url_Parse errText [Step 0; Step 0; Step 0] link_found in
   visited s' = <[pageA := true]> (visited link_found) ∧
   tasks s' = (if length (tasks link_found) <? tasksCapacity
               then tasks link_found ++ [mkTask pageA (url (mkTask seed "" 0)) (0 + 1)]
               else tasks link_found) ∧
   workers s' !! 0 = Some (Queueing (mkTask seed "" 0) []) ∧
   fetched s' = fetched link_found ∧
   shouldVisit simple_url_Parse s' pageA = false) ∧
  (∃ s', step_worker simple_url_Parse errText channel_full 0 = Some s' ∧
         workers s' !! 0 = Some (Queueing (mkTask pageA seed 1) []) ∧
         visited s' = visited channel_full ∧ fetched s' = fetched channel_full ∧
         (length (tasks channel_full) < tasksCapacity →
          tasks s' = tasks channel_full ++
                     [mkTask pageC (url (mkTask pageA seed 1)) (1 + 1)]) ∧
         (tasksCapacity ≤ length (tasks channel_full) →
          tasks s' = tasks channel_full)).
Proof.
  split.
  - apply (proj1 (proj2 (proj2 (enqueue_unless_full simple_url_Parse errText
             link_found 0 (mkTask seed "" 0) pageA [])))).
    + vm_compute. discriminate.
    + vm_compute. reflexivity.
    + vm_compute. reflexivity.
  - apply (proj1 (proj2 (enqueue_unless_full simple_url_Parse errText
             channel_full 0 (mkTask pageA seed 1) pageC []))).
    vm_compute. reflexivity.
Defined.


(** *** The invariants on concrete crawls *)

Definition config2 : Config := mkConfig 2 (10 * 1000000000) 0 false.
Definition config1 : Config := mkConfig 1 (10 * 1000000000) 1 false.
Definition seedURL : URL := mkURL "https" "site.com" "/".

Lemma concurrency_bound_witness :
  let s := run simple_url_Parse errText race_schedule (start (crawlerOf 2 0) seed seedURL) in
  semaphore s = sum_list (map holds (workers s)) ∧
  (Z.of_nat (semaphore s) ≤ Concurrency config2)%Z ∧
  (Z.of_nat (inFlight (workers s)) ≤ Concurrency config2)%Z ∧
  Z.of_nat (length (workers s)) = Concurrency config2 ∧
  length (tasks s) ≤ tasksCapacity.
Proof.
  apply (concurrency_bound simple_url_Parse errText config2 (crawlerOf 2 0) seed
           race_schedule).
  - reflexivity.
  - vm_compute. reflexivity.
Defined.

Lemma tasks_same_domain_witness :
  let s := run simple_url_Parse errText race_schedule (start (crawlerOf 2 0) seed seedURL) in
  simple_url_Parse seed = Some (baseURL s) ∧
  Forall (fun task => IsSameDomain simple_url_Parse (url task) (baseURL s) = true ∧
                      visited s !! url task = Some true ∧
                      (0 ≤ depth task)%Z)
         (fetched s ++ tasks s).
Proof.
  apply (tasks_same_domain simple_url_Parse errText config2 (crawlerOf 2 0) seed
           race_schedule).
  - reflexivity.
  - vm_compute. reflexivity.
Defined.

(** The seed answers 404. *)
Definition broken_seed_schedule : list event :=
  fetchBy 0 (Response 404 "text/html" []).

Lemma broken_links_are_failures_witness :
  Forall (fun b => (StatusCode b = 0 ∨ 400 ≤ StatusCode b)%Z)
         (broken (run simple_url_Parse errText broken_seed_schedule
                      (start (crawlerOf 2 0) seed seedURL))).
Proof.
  apply (broken_links_are_failures simple_url_Parse errText config2 (crawlerOf 2 0)
           seed broken_seed_schedule).
  - reflexivity.
  - vm_compute. reflexivity.
Defined.

Lemma early_return_without_request_witness :
  Crawl simple_url_Parse errText (crawlerOf 2 0) seed [Step 0; Poll; Poll] =
    Succeeds {| StartURL := seed; TotalVisited := 1; BrokenLinks := [] |} ∧
  requests simple_url_Parse errText (crawlerOf 2 0) seed [Step 0; Poll; Poll] = [].
Proof.
  apply (early_return_without_request simple_url_Parse errText config2
           (crawlerOf 2 0) seed seedURL).
  - reflexivity.
  - cbn. lia.
  - vm_compute. reflexivity.
Defined.

Lemma single_worker_fetches_once_witness :
  let s := run simple_url_Parse errText chain_schedule (start (crawlerOf 1 1) seed seedURL) in
  NoDup (map url (fetched s) ++ map url (tasks s)).
Proof.
  apply (single_worker_fetches_once simple_url_Parse errText config1 (crawlerOf 1 1)
           seed chain_schedule).
  - reflexivity.
  - reflexivity.
  - vm_compute. reflexivity.
Defined.

End Crawler.

(** ** Link extraction ([internal/crawler/parser.go])

    [ExtractLinks] reads the tokens of [golang.org/x/net/html] and hands
    every [href] to [normalizeURL], which works with [net/url].  Both
    packages are taken as given: the token stream is a list (its end is the
    [ErrorToken]), and the URL operations are parameters. *)

Module LinkParser.
Import GoStrings.

Record Attribute := mkAttr { Key : string; Val : string }.

Inductive Token :=
  | StartTagToken (Data : string) (Attr : list Attribute)
  | SelfClosingTagToken (Data : string) (Attr : list Attribute)
  | OtherToken.            (* text, end tag, comment, doctype *)

Definition skipPrefixes : list string :=
  ["#"; "javascript:"; "mailto:"; "tel:"; "data:"; "file:"]%string.

Section WithURLPackage.
(** [url.URL] with [url.Parse], [ResolveReference], the [Scheme] field, the
    assignment [Fragment = ""] and [String]. *)
Variable URL : Type.
Variable url_Parse : string → option URL.
Variable ResolveReference : URL → URL → URL.
Variable Scheme : URL → string.
Variable clearFragment : URL → URL.
Variable URL_String : URL → string.

(** [normalizeURL] converts a potentially relative URL to an absolute URL
    and filters out non-HTTP URLs. *)
Definition normalizeURL (href : string) (baseURL : URL) : string :=
  let href := TrimSpace href in
  if String.eqb href "" then ""%string
  else
    let lowerHref := ToLower href in
    if existsb (fun prefix => HasPrefix lowerHref prefix) skipPrefixes then ""%string
    else
      match url_Parse href with
      | None => ""%string
      | Some parsedURL =>
          let resolvedURL := ResolveReference baseURL parsedURL in
          if negb (String.eqb (Scheme resolvedURL) "http") &&
             negb (String.eqb (Scheme resolvedURL) "https")
          then ""%string
          else URL_String (clearFragment resolvedURL)
      end.

(** The value of the first [href] attribute, if any. *)
Fixpoint firstHref (attrs : list Attribute) : option string :=
  match attrs with
  | [] => None
  | attr :: attrs' =>
      if String.eqb (Key attr) "href" then Some (Val attr) else firstHref attrs'
  end.

(** The body of the token loop: what the [switch] does to [links]. *)
Definition visitToken (links : list string) (token : Token) (baseURL : URL)
    : list string :=
  match token with
  | StartTagToken data attrs | SelfClosingTagToken data attrs =>
      if String.eqb data "a" then
        match firstHref attrs with
        | Some val =>
            let link := normalizeURL val baseURL in
            if negb (String.eqb link "") then links ++ [link] else links
        | None => links
        end
      else links
  | OtherToken => links
  end.

(** [ExtractLinks] parses HTML content and extracts all href links. *)
Definition ExtractLinks (body : list Token) (baseURL : URL) : list string :=
  foldl (fun links token => visitToken links token baseURL) [] body.

(** What one token adds. *)
Definition linkOf (token : Token) (baseURL : URL) : list string :=
  visitToken [] token baseURL.

Lemma visitToken_linkOf links token baseURL :
  visitToken links token baseURL = links ++ linkOf token baseURL.
Proof.
  unfold linkOf, visitToken.
  destruct token as [data attrs|data attrs|]; rewrite ?app_nil_r; try done;
    (destruct (String.eqb data "a"); [|by rewrite app_nil_r]);
    (destruct (firstHref attrs); [|by rewrite app_nil_r]);
    destruct (negb _); by rewrite ?app_nil_r.
Qed.

Lemma ExtractLinks_from (body : list Token) (baseURL : URL) (acc : list string) :
  foldl (fun links token => visitToken links token baseURL) acc body =
  acc ++ ExtractLinks body baseURL.
Proof.
  unfold ExtractLinks. revert acc. induction body as [|token body IH]; intros acc; cbn.
  - by rewrite app_nil_r.
  - rewrite IH, (IH (visitToken [] token baseURL)).
    rewrite (visitToken_linkOf acc). unfold linkOf. by rewrite app_assoc.
Qed.

(** Whether a token is an anchor tag. *)
Definition isAnchor (token : Token) : bool :=
  match token with
  | StartTagToken data _ | SelfClosingTagToken data _ => String.eqb data "a"
  | OtherToken => false
  end.

(** The links of a document are the links of its parts, in document order;
    there is at most one link per anchor tag. *)
Theorem ExtractLinks_app (body1 body2 : list Token) (baseURL : URL) :
  ExtractLinks (body1 ++ body2) baseURL =
    ExtractLinks body1 baseURL ++ ExtractLinks body2 baseURL ∧
  length (ExtractLinks body1 baseURL) ≤ length (List.filter isAnchor body1).
Proof.
  split.
  - unfold ExtractLinks at 1. rewrite foldl_app.
    fold (ExtractLinks body1 baseURL). apply ExtractLinks_from.
  - induction body1 as [|token body IH]; [done|].
    unfold ExtractLinks. cbn [foldl app]. rewrite ExtractLinks_from, List.length_app.
    fold (linkOf token baseURL).
    assert (length (linkOf token baseURL) ≤ if isAnchor token then 1 else 0).
    { unfold linkOf. destruct token as [data attrs|data attrs|]; cbn; [| |done];
        (destruct (String.eqb data "a"); [|done]);
        (destruct (firstHref attrs); [|cbn; lia]);
        destruct (negb _); cbn; lia. }
    cbn [List.filter]. destruct (isAnchor token); cbn [length]; lia.
Qed.

(** Every extracted link is non-empty and is the rendering of an http or
    https URL, resolved against the base and stripped of its fragment, whose
    [href] (trimmed, in lower case) starts with none of the skipped
    prefixes: anchors, javascript, mailto, tel, data and file links are never
    returned. *)
Theorem ExtractLinks_sound (body : list Token) (baseURL : URL) (link : string) :
  link ∈ ExtractLinks body baseURL →
  link ≠ ""%string ∧
  ∃ href parsedURL,
    url_Parse (TrimSpace href) = Some parsedURL ∧
    (Scheme (ResolveReference baseURL parsedURL) = "http"%string ∨
     Scheme (ResolveReference baseURL parsedURL) = "https"%string) ∧
    link = URL_String (clearFragment (ResolveReference baseURL parsedURL)) ∧
    TrimSpace href ≠ ""%string ∧
    Forall (fun prefix => HasPrefix (ToLower (TrimSpace href)) prefix = false)
           skipPrefixes.
Proof.
  induction body as [|token body IH] using rev_ind.
  - intros H. inversion H.
  - unfold ExtractLinks. rewrite foldl_app. cbn [foldl].
    fold (ExtractLinks body baseURL). rewrite visitToken_linkOf, elem_of_app.
    intros [Hin|Hin]; [by apply IH|]. clear IH.
    assert (∃ val, link = normalizeURL val baseURL ∧ link ≠ ""%string)
      as (val & Hlink & Hne).
    { unfold linkOf in Hin. destruct token as [data attrs|data attrs|]; cbn in Hin;
        [| |inversion Hin];
        (destruct (String.eqb data "a"); [|inversion Hin]);
        (destruct (firstHref attrs) as [val|]; [|inversion Hin]);
        (destruct (String.eqb_spec (normalizeURL val baseURL) ""); cbn in Hin;
           [inversion Hin|]);
        apply list_elem_of_singleton in Hin; exists val; (split; [done|congruence]). }
    split; [done|]. exists val. revert Hlink Hne. unfold normalizeURL.
    destruct (String.eqb_spec (TrimSpace val) "") as [|Hval]; [by intros ->|].
    destruct (existsb _ skipPrefixes) eqn:Ex; [by intros ->|].
    destruct (url_Parse (TrimSpace val)) as [parsedURL|]; [|by intros ->].
    destruct (String.eqb_spec (Scheme (ResolveReference baseURL parsedURL)) "http");
      destruct (String.eqb_spec (Scheme (ResolveReference baseURL parsedURL)) "https");
      cbn; try (by intros ->); intros -> _; exists parsedURL;
      (split_and!; [done|tauto|done|done|]).
    all: apply Forall_forall; intros prefix Hp%list_elem_of_In;
      destruct (HasPrefix _ prefix) eqn:E; [|done];
      assert (existsb (fun prefix => HasPrefix (ToLower (TrimSpace val)) prefix)
                      skipPrefixes = true) by (apply existsb_exists; eauto);
      congruence.
Qed.

End WithURLPackage.

(** A small instance of the URL package for an example: references are
    resolved by taking scheme and host from the base when the reference has
    no scheme. *)
Definition resolveSimple (base ref : URLs.URL) : URLs.URL :=
  if String.eqb (URLs.Scheme ref) ""
  then URLs.mkURL (URLs.Scheme base) (URLs.Host base) (URLs.Path ref)
  else ref.

Definition renderSimple (u : URLs.URL) : string :=
  (URLs.Scheme u +:+ "://" +:+ URLs.Host u +:+ URLs.Path u)%string.

Definition sampleBody : list Token :=
  [StartTagToken "a" [mkAttr "class" "nav"; mkAttr "href" " /page "];
   OtherToken;
   StartTagToken "a" [mkAttr "href" "MAILTO:a@b.com"];
   SelfClosingTagToken "a" [mkAttr "href" "#top"]].

Lemma ExtractLinks_sound_witness :
  "https://site.com/page"%string ≠ ""%string ∧
  ∃ href parsedURL,
    URLs.simple_url_Parse (TrimSpace href) = Some parsedURL ∧
    (URLs.Scheme (resolveSimple (URLs.mkURL "https" "site.com" "/") parsedURL)
       = "http"%string ∨
     URLs.Scheme (resolveSimple (URLs.mkURL "https" "site.com" "/") parsedURL)
       = "https"%string) ∧
    "https://site.com/page"%string =
      renderSimple (id (resolveSimple (URLs.mkURL "https" "site.com" "/") parsedURL)) ∧
    TrimSpace href ≠ ""%string ∧
    Forall (fun prefix => HasPrefix (ToLower (TrimSpace href)) prefix = false)
           skipPrefixes.
Proof.
  apply (ExtractLinks_sound URLs.URL URLs.simple_url_Parse resolveSimple URLs.Scheme
           id renderSimple sampleBody (URLs.mkURL "https" "site.com" "/")
           "https://site.com/page").
  vm_compute. constructor.
Defined.

End LinkParser.
